(** * videoOverlayTimer: the setup dialog and the overlay window of [video.py]

    A shallow embedding of [src/video.py].  The two Qt classes become
    records; their methods become functions.  The overlay's methods run in
    a small monad that threads the object's fields, collects the signals
    that were emitted and propagates Python exceptions, so that the
    [try: ... except: pass] blocks of [_finish] are modelled as written.

    Python integers are unbounded: they are [Z].  Texts are [string]s, a
    character standing for the code point of its number (U+0000 to
    U+00FF). *)

From Stdlib Require Import ZArith QArith List String Ascii Bool Lia.
Import ListNotations.

Local Open Scope string_scope.
Local Open Scope Z_scope.

(** ** Exceptions *)

(** The calls into Qt's timer and movie and into VLC's player that the
    overlay makes.  The three that stop something are the calls
    [_finish] guards with [try]. *)
Inductive Call : Type :=
| TimerStart | TimerStop
| PlayerPlay | PlayerPause | PlayerStop
| MovieStart | MovieSetPaused | MovieStop.

Inductive Exn : Type :=
| ValueError                      (* int() on a text that is no integer *)
| FileNotFoundError               (* "Image not found"; no VLC directory *)
| InvalidGif                      (* ValueError("Invalid GIF") *)
| ResolveError                    (* yt_dlp.extract_info failed *)
| OverflowError                   (* an integer that does not fit a C int *)
| LibError (c : Call).            (* a timer, player or movie call raised *)

(** A computation that either raises or returns. *)
Definition exc (A : Type) : Type := (Exn + A)%type.

(** ** Python's text primitives *)

Module Py.

(** [str.isspace] on one character: TAB, LF, VT, FF, CR, the four
    separators 0x1c-0x1f, the blank, NEL (0x85) and the no-break space
    (0xa0). *)
Definition is_space (c : ascii) : bool :=
  let n := N_of_ascii c in
  ((9 <=? n) && (n <=? 13) || (28 <=? n) && (n <=? 32)
   || (n =? 133) || (n =? 160))%N.

(** The white space [int] skips around a literal: C's white space, and
    NEL and the no-break space, which the conversion first turns into
    blanks.  The separators 0x1c-0x1f are not among them. *)
Definition is_int_space (c : ascii) : bool :=
  let n := N_of_ascii c in
  ((9 <=? n) && (n <=? 13) || (n =? 32) || (n =? 133) || (n =? 160))%N.

Fixpoint lstrip_by (p : ascii -> bool) (s : string) : string :=
  match s with
  | EmptyString => EmptyString
  | String c r => if p c then lstrip_by p r else s
  end.

Fixpoint rstrip_by (p : ascii -> bool) (s : string) : string :=
  match s with
  | EmptyString => EmptyString
  | String c r =>
      match rstrip_by p r with
      | EmptyString => if p c then EmptyString else String c EmptyString
      | r' => String c r'
      end
  end.

(** [str.strip()] with no argument. *)
Definition strip (s : string) : string :=
  rstrip_by is_space (lstrip_by is_space s).

(** [str.lower()]: the capitals A-Z and, above the ASCII range, the
    accented capitals 0xc0-0xde (0xd7, the multiplication sign, is not a
    letter). *)
Definition lower_char (c : ascii) : ascii :=
  let n := N_of_ascii c in
  if ((65 <=? n) && (n <=? 90)
      || (192 <=? n) && (n <=? 222) && negb (n =? 215))%N
  then ascii_of_N (n + 32) else c.

Fixpoint lower (s : string) : string :=
  match s with
  | EmptyString => EmptyString
  | String c r => String (lower_char c) (lower r)
  end.

(** [s.endswith(suffix)]. *)
Definition endswith (s suffix : string) : bool :=
  let n := String.length s in
  let m := String.length suffix in
  (m <=? n)%nat && String.eqb (substring (n - m) m s) suffix.

(** Truth value of a text in a condition: non-empty. *)
Definition truthy (s : string) : bool :=
  match s with EmptyString => false | String _ _ => true end.

Definition digit_val (c : ascii) : option Z :=
  let n := N_of_ascii c in
  if ((48 <=? n) && (n <=? 57))%N then Some (Z.of_N n - 48) else None.

Definition is_underscore (c : ascii) : bool := (N_of_ascii c =? 95)%N.

(** Digits with single underscores between them; returns the value and
    the number of digits.  [prev_us] tells that the previous character
    was an underscore: two in a row, or one at the end, are refused. *)
Fixpoint scan_digits (prev_us : bool) (acc : Z) (n : nat) (cs : string)
  : option (Z * nat) :=
  match cs with
  | EmptyString => if prev_us then None else Some (acc, n)
  | String c r =>
      if is_underscore c then
        if prev_us then None else scan_digits true acc n r
      else
        match digit_val c with
        | Some d => scan_digits false (10 * acc + d) (S n) r
        | None => None
        end
  end.

(** An unsigned literal: at least one digit, no leading underscore. *)
Definition scan_unsigned (cs : string) : option (Z * nat) :=
  match cs with
  | EmptyString => None
  | String c _ => if is_underscore c then None else scan_digits false 0 0 cs
  end.

(** The conversion refuses literals of more than [limit] digits when a
    limit is set ([sys.get_int_max_str_digits()], 0 meaning none; always
    0 before the interpreter versions that have the limit); literals of
    at most 640 digits are never refused. *)
Definition too_long (limit n : nat) : bool :=
  (640 <? n)%nat && (0 <? limit)%nat && (limit <? n)%nat.

Definition checked (limit : nat) (neg : bool) (r : option (Z * nat)) : exc Z :=
  match r with
  | Some (v, n) =>
      if too_long limit n then inl ValueError
      else inr (if neg then - v else v)
  | None => inl ValueError
  end.

(** [int(text)] in base 10: surrounding white space is dropped, then an
    optional sign, then the digits. *)
Definition int (limit : nat) (text : string) : exc Z :=
  match rstrip_by is_int_space (lstrip_by is_int_space text) with
  | EmptyString => inl ValueError
  | String c r =>
      if (N_of_ascii c =? 45)%N then checked limit true (scan_unsigned r)
      else if (N_of_ascii c =? 43)%N then checked limit false (scan_unsigned r)
      else checked limit false (scan_unsigned (String c r))
  end.

End Py.

(** ** The setup dialog *)

(** The two line edits of [SetupDialog], as the user left them. *)
Record SetupDialog : Type := {
  duration_input : string;
  url_input : string
}.

(** [SetupDialog.get_values]: the bare [except] replaces every failure of
    [int] by 0. *)
Definition get_values (limit : nat) (dlg : SetupDialog) : Z * string :=
  let dur :=
    match Py.int limit (duration_input dlg) with
    | inr n => n
    | inl _ => 0
    end in
  (dur, Py.strip (url_input dlg)).

(** ** The overlay window: data *)

(** State of the [vlc.MediaPlayer]. *)
Inductive PlayerState : Type := PIdle | PPlaying | PPaused | PStopped.

(** State of the [QMovie]. *)
Inductive MovieState : Type := NotRunning | MPaused | Running.

(** The widget on screen: built but not shown, shown, or closed. *)
Inductive Window : Type := Hidden | Visible | Closed.

(** [OverlayWindow.finished], the only signal of the class. *)
Inductive Signal : Type := finished.

(** Sizes: the size the constructor read for the asset ([w0], [h0]: the
    size of [original_pixmap] for an image, of the movie's current image
    for a GIF), the initial asset size, the height of the control strip,
    the window size ([self.width()], [self.height()]), the box the asset
    is given (label geometry, scaled size of the movie), and the size of
    what the label shows in that box (the scaled pixmap of an image, the
    frames of a GIF). *)
Record Geometry : Type := {
  native_w : Z;
  native_h : Z;
  init_w : Z;
  init_h : Z;
  ctrl_h : Z;
  win_w : Z;
  win_h : Z;
  asset_w : Z;
  asset_h : Z;
  shown_w : Z;
  shown_h : Z
}.

(** The fields of an [OverlayWindow].  [movie] exists for a GIF only.
    The window position (centring, dragging) is left out. *)
Record Overlay : Type := {
  is_gif : bool;
  movie : option MovieState;
  geom : Geometry;
  progress_max : Z;
  progress_value : Z;
  pause_text : string;
  paused : bool;
  duration : Z;
  elapsed : Z;
  timer_active : bool;
  player : PlayerState;
  window : Window
}.

Definition set_movie (m : option MovieState) (s : Overlay) : Overlay :=
  {| is_gif := is_gif s; movie := m; geom := geom s;
     progress_max := progress_max s; progress_value := progress_value s;
     pause_text := pause_text s; paused := paused s;
     duration := duration s; elapsed := elapsed s;
     timer_active := timer_active s; player := player s; window := window s |}.

Definition set_geom (g : Geometry) (s : Overlay) : Overlay :=
  {| is_gif := is_gif s; movie := movie s; geom := g;
     progress_max := progress_max s; progress_value := progress_value s;
     pause_text := pause_text s; paused := paused s;
     duration := duration s; elapsed := elapsed s;
     timer_active := timer_active s; player := player s; window := window s |}.

Definition set_progress_value (v : Z) (s : Overlay) : Overlay :=
  {| is_gif := is_gif s; movie := movie s; geom := geom s;
     progress_max := progress_max s; progress_value := v;
     pause_text := pause_text s; paused := paused s;
     duration := duration s; elapsed := elapsed s;
     timer_active := timer_active s; player := player s; window := window s |}.

Definition set_pause_text (t : string) (s : Overlay) : Overlay :=
  {| is_gif := is_gif s; movie := movie s; geom := geom s;
     progress_max := progress_max s; progress_value := progress_value s;
     pause_text := t; paused := paused s;
     duration := duration s; elapsed := elapsed s;
     timer_active := timer_active s; player := player s; window := window s |}.

Definition set_paused (b : bool) (s : Overlay) : Overlay :=
  {| is_gif := is_gif s; movie := movie s; geom := geom s;
     progress_max := progress_max s; progress_value := progress_value s;
     pause_text := pause_text s; paused := b;
     duration := duration s; elapsed := elapsed s;
     timer_active := timer_active s; player := player s; window := window s |}.

Definition set_elapsed (e : Z) (s : Overlay) : Overlay :=
  {| is_gif := is_gif s; movie := movie s; geom := geom s;
     progress_max := progress_max s; progress_value := progress_value s;
     pause_text := pause_text s; paused := paused s;
     duration := duration s; elapsed := e;
     timer_active := timer_active s; player := player s; window := window s |}.

Definition set_timer_active (b : bool) (s : Overlay) : Overlay :=
  {| is_gif := is_gif s; movie := movie s; geom := geom s;
     progress_max := progress_max s; progress_value := progress_value s;
     pause_text := pause_text s; paused := paused s;
     duration := duration s; elapsed := elapsed s;
     timer_active := b; player := player s; window := window s |}.

Definition set_player (p : PlayerState) (s : Overlay) : Overlay :=
  {| is_gif := is_gif s; movie := movie s; geom := geom s;
     progress_max := progress_max s; progress_value := progress_value s;
     pause_text := pause_text s; paused := paused s;
     duration := duration s; elapsed := elapsed s;
     timer_active := timer_active s; player := p; window := window s |}.

Definition set_window (w : Window) (s : Overlay) : Overlay :=
  {| is_gif := is_gif s; movie := movie s; geom := geom s;
     progress_max := progress_max s; progress_value := progress_value s;
     pause_text := pause_text s; paused := paused s;
     duration := duration s; elapsed := elapsed s;
     timer_active := timer_active s; player := player s; window := w |}.

(** *** The library objects *)

(** [MediaPlayer.pause()] toggles between playing and paused and does
    nothing in the other states. *)
Definition vlc_pause (p : PlayerState) : PlayerState :=
  match p with
  | PPlaying => PPaused
  | PPaused => PPlaying
  | other => other
  end.

(** [QSize.isEmpty()]: a side below 1. *)
Definition size_empty (size : Z * Z) : bool :=
  (fst size <? 1) || (snd size <? 1).

(** Whether a movie can produce a frame at its scaled size: not at a
    size with a side 0.  (A size with a negative side is not valid and
    is not applied: the frames keep their own size.) *)
Definition frame_readable (scaled : Z * Z) : bool :=
  negb ((0 <=? fst scaled) && (0 <=? snd scaled) && size_empty scaled).

(** [QMovie.start()], for the scaled size the movie was given: a movie
    that is not running loads its first frame and runs, or stays as it
    is when no frame can be read; a paused movie is resumed.  The
    movie's own frame timer is not part of the model. *)
Definition movie_start (scaled : Z * Z) (m : MovieState) : MovieState :=
  match m with
  | NotRunning => if frame_readable scaled then Running else NotRunning
  | MPaused => Running
  | Running => Running
  end.

(** [QSize.scaled(box, Qt.KeepAspectRatio)] for a size [wd] by [ht]:
    the largest size of the same proportions inside the box, in C's
    integer arithmetic. *)
Definition qsize_scaled (size box : Z * Z) : Z * Z :=
  let wd := fst size in
  let ht := snd size in
  if (wd =? 0) || (ht =? 0) then box
  else
    let rw := Z.quot (snd box * wd) ht in
    if rw <=? fst box then (rw, snd box)
    else (fst box, Z.quot (fst box * ht) wd).

(** The size of [pixmap.scaled(w, h, Qt.KeepAspectRatio, ...)] for a
    pixmap of the given size: null for an empty box, and never thinner
    than one pixel. *)
Definition pixmap_scaled (size box : Z * Z) : Z * Z :=
  if size_empty box then (0, 0)
  else
    let r := qsize_scaled size box in
    (Z.max (fst r) 1, Z.max (snd r) 1).

(** [QMovie.setPaused(b)]: a movie that is not running cannot be paused. *)
Definition movie_setPaused (b : bool) (m : MovieState) : MovieState :=
  if b then match m with NotRunning => NotRunning | _ => MPaused end
  else Running.

(** [QProgressBar.setValue(v)]: a value outside the range is ignored,
    unless the range is the empty range 0..0. *)
Definition progress_setValue (v : Z) (s : Overlay) : Overlay :=
  if ((progress_max s <? v) || (v <? 0)) && negb (progress_max s =? 0)
  then s
  else set_progress_value v s.

(** ** The overlay window: construction *)

Definition IMAGE_PATH : string := "sr2799489b00daws3.png".

(** The scale factor 0.5.  A binary float holds one half exactly and the
    product of an integer below 2^53 with it is exact as well, so the
    float arithmetic of [int(w0 * FIXED_SCALE)] is rational arithmetic
    followed by [int]'s rounding towards zero. *)
Definition FIXED_SCALE : Q := 1 # 2.

(** [int(x)] for a float [x]: the fraction is dropped. *)
Definition int_of_float (x : Q) : Z := Z.quot (Qnum x) (Z.pos (Qden x)).

(** What the constructor asks of the outside: the size of the image or
    of the frames of the GIF at a path ([None] when [QPixmap] is null or
    [QMovie] is invalid), the stream address yt-dlp resolves a link to
    ([None] when the resolution raises), and whether
    [os.add_dll_directory] finds the VLC directory (it is called on
    Windows only: [true] elsewhere). *)
Record Env : Type := {
  load_asset : string -> option (Z * Z);
  extract_info : string -> option string;
  dll_directory : bool
}.

(** What the label shows in a box: the frames of a movie are scaled to
    the box, the pixmap of an image is scaled into it keeping its
    proportions. *)
Definition shown_in (gif : bool) (native box : Z * Z) : Z * Z :=
  if gif then box else pixmap_scaled native box.

(** [OverlayWindow._layout]: the asset fills the window above the
    control strip. *)
Definition _layout (s : Overlay) : Overlay :=
  let g := geom s in
  let w := win_w g in
  let h := win_h g in
  let img_h := h - ctrl_h g in
  let shown := shown_in (is_gif s) (native_w g, native_h g) (w, img_h) in
  set_geom {| native_w := native_w g; native_h := native_h g;
              init_w := init_w g; init_h := init_h g; ctrl_h := ctrl_h g;
              win_w := w; win_h := h; asset_w := w; asset_h := img_h;
              shown_w := fst shown; shown_h := snd shown |} s.

(** The fields as they stand when the constructor reaches its last
    statement, the call of [_layout]; [w0] and [h0] are the width and
    the height the constructor read. *)
Definition constructed (gif : bool) (w0 h0 duration : Z) : Overlay :=
  let iw := int_of_float (inject_Z w0 * FIXED_SCALE) in
  let ih := int_of_float (inject_Z h0 * FIXED_SCALE) in
  let shown := shown_in gif (w0, h0) (iw, ih) in
  {| is_gif := gif;
     movie := if gif then Some NotRunning else None;
     geom := {| native_w := w0; native_h := h0;
                init_w := iw; init_h := ih; ctrl_h := 100;
                win_w := iw; win_h := ih + 100;
                asset_w := iw; asset_h := ih;
                shown_w := fst shown; shown_h := snd shown |};
     progress_max := Z.max 0 duration;
     progress_value := 0;
     pause_text := "Pause";
     paused := false;
     duration := duration;
     elapsed := 0;
     timer_active := true;
     player := PIdle;
     window := Hidden |}.

(** The integers Qt takes for a C [int]. *)
Definition is_c_int (n : Z) : bool :=
  (-2147483648 <=? n) && (n <=? 2147483647).

(** The width and the height the constructor reads.  For an image they
    are those of the pixmap.  For a GIF they are those of
    [movie.currentImage()], and the movie, which was only just made, has
    no current image yet: the image is null, 0 by 0. *)
Definition size_read (gif : bool) (size : Z * Z) : Z * Z :=
  if gif then (0, 0) else size.

(** [OverlayWindow.__init__(path, duration, url)].  The asset is loaded
    first; [progress.setRange(0, duration)] raises for a duration that
    is no C [int]; then the link is resolved. *)
Definition OverlayWindow_init (env : Env) (path : string) (duration : Z)
  (url : string) : exc Overlay :=
  let gif := Py.endswith (Py.lower path) ".gif" in
  match load_asset env path with
  | None => inl (if gif then InvalidGif else FileNotFoundError)
  | Some size =>
      if is_c_int duration then
        match extract_info env url with
        | None => inl ResolveError
        | Some _ =>
            if dll_directory env
            then inr (_layout (constructed gif (fst (size_read gif size))
                                 (snd (size_read gif size)) duration))
            else inl FileNotFoundError
        end
      else inl OverflowError
  end.

(** ** The method monad *)

(** What running a method on an overlay leaves behind: the fields, the
    signals emitted on the way, and the value returned or the exception
    raised.  The fields are kept when a method raises: what it did before
    the exception is done. *)
Record Out (A : Type) : Type := mkOut {
  state : Overlay;
  emitted : list Signal;
  result : exc A
}.

Arguments mkOut {A} _ _ _.
Arguments state {A} _.
Arguments emitted {A} _.
Arguments result {A} _.

Definition M (A : Type) : Type := Overlay -> Out A.

Definition ret {A : Type} (a : A) : M A :=
  fun s => mkOut s [] (inr a).

Definition bind {A B : Type} (m : M A) (k : A -> M B) : M B :=
  fun s =>
    match m s with
    | mkOut s1 o1 (inl e) => mkOut s1 o1 (inl e)
    | mkOut s1 o1 (inr a) =>
        match k a s1 with
        | mkOut s2 o2 r => mkOut s2 (o1 ++ o2) r
        end
    end.

Definition gets {A : Type} (f : Overlay -> A) : M A :=
  fun s => mkOut s [] (inr (f s)).

Definition modify (f : Overlay -> Overlay) : M unit :=
  fun s => mkOut (f s) [] (inr tt).

Definition emit (sg : Signal) : M unit :=
  fun s => mkOut s [sg] (inr tt).

(** [if b: m] *)
Definition when (b : bool) (m : M unit) : M unit :=
  if b then m else ret tt.

(** [try: m] followed by [except: pass] *)
Definition try_pass (m : M unit) : M unit :=
  fun s =>
    match m s with
    | mkOut s1 o1 (inl _) => mkOut s1 o1 (inr tt)
    | r => r
    end.

Declare Scope method_scope.
Delimit Scope method_scope with method.
Notation "x <- m ;; k" := (bind m (fun x => k))
  (at level 61, m at next level, right associativity) : method_scope.
Notation "m ;; k" := (bind m (fun _ => k))
  (at level 61, right associativity) : method_scope.
Local Open Scope method_scope.

(** [m] run [n] times in a row. *)
Fixpoint times (n : nat) (m : M unit) : M unit :=
  match n with
  | O => ret tt
  | S n' => m ;; times n' m
  end.

(** ** The overlay window: methods *)

Section Methods.

(** Whether a call into the timer, the player or the movie raises when
    it is made in a given state.  A call that raises changes nothing. *)
Variable raises : Call -> Overlay -> bool.

Definition call (c : Call) (f : Overlay -> Overlay) : M unit :=
  fun s =>
    if raises c s then mkOut s [] (inl (LibError c))
    else mkOut (f s) [] (inr tt).

Definition on_movie (f : MovieState -> MovieState) (s : Overlay) : Overlay :=
  set_movie (option_map f (movie s)) s.

Definition timer_start : M unit := call TimerStart (set_timer_active true).
Definition timer_stop : M unit := call TimerStop (set_timer_active false).
Definition player_play : M unit := call PlayerPlay (set_player PPlaying).
Definition player_pause : M unit :=
  call PlayerPause (fun s => set_player (vlc_pause (player s)) s).
Definition player_stop : M unit := call PlayerStop (set_player PStopped).
Definition movie_start_ : M unit :=
  call MovieStart
    (fun s => on_movie (movie_start (asset_w (geom s), asset_h (geom s))) s).
Definition movie_setPaused_ (b : bool) : M unit :=
  call MovieSetPaused (on_movie (movie_setPaused b)).
Definition movie_stop : M unit :=
  call MovieStop (on_movie (fun _ => NotRunning)).

(** [QWidget.close()] *)
Definition close : M unit := modify (set_window Closed).

(** [OverlayWindow.showEvent] *)
Definition showEvent : M unit :=
  gif <- gets is_gif ;;
  when gif movie_start_ ;;
  player_play.

(** [ow.show()]: the window appears and receives its show event. *)
Definition show : M unit :=
  modify (set_window Visible) ;;
  showEvent.

(** [OverlayWindow.resizeEvent], for the new window size. *)
Definition resizeEvent (w h : Z) : M unit :=
  modify (fun s =>
    let g := geom s in
    _layout (set_geom {| native_w := native_w g; native_h := native_h g;
                         init_w := init_w g; init_h := init_h g;
                         ctrl_h := ctrl_h g; win_w := w; win_h := h;
                         asset_w := asset_w g; asset_h := asset_h g;
                         shown_w := shown_w g; shown_h := shown_h g |} s)).

(** [OverlayWindow._finish] *)
Definition _finish : M unit :=
  try_pass timer_stop ;;
  try_pass player_stop ;;
  gif <- gets is_gif ;;
  when gif (try_pass movie_stop) ;;
  close ;;
  emit finished.

(** [OverlayWindow._tick] *)
Definition _tick : M unit :=
  p <- gets paused ;;
  when (negb p)
    (modify (fun s => set_elapsed (elapsed s + 1) s) ;;
     e <- gets elapsed ;;
     modify (progress_setValue e) ;;
     e <- gets elapsed ;;
     d <- gets duration ;;
     when (d <=? e) _finish).

(** [OverlayWindow._toggle_pause] *)
Definition _toggle_pause : M unit :=
  p <- gets paused ;;
  if negb p then
    timer_stop ;;
    player_pause ;;
    gif <- gets is_gif ;;
    when gif (movie_setPaused_ true) ;;
    modify (set_pause_text "Resume") ;;
    modify (set_paused true)
  else
    timer_start ;;
    player_play ;;
    gif <- gets is_gif ;;
    when gif (movie_setPaused_ false) ;;
    modify (set_pause_text "Pause") ;;
    modify (set_paused false).

(** [OverlayWindow._cancel] *)
Definition _cancel : M unit :=
  timer_stop ;;
  player_stop ;;
  gif <- gets is_gif ;;
  when gif movie_stop ;;
  _finish.

(** *** The event loop *)

(** What Qt delivers to an overlay: the timer's timeout, a click on one
    of the two buttons, a resize, a show event of the window system. *)
Inductive Event : Type :=
| Timeout | ClickPause | ClickCancel | Resized (w h : Z) | Exposed.

(** A timer that was stopped has no timeout; a window that is not on
    screen gets no click, resize or show event. *)
Definition enabled (ev : Event) (s : Overlay) : bool :=
  match ev with
  | Timeout => timer_active s
  | _ => match window s with Visible => true | _ => false end
  end.

(** The slot or event handler connected in the constructor. *)
Definition handler (ev : Event) : M unit :=
  match ev with
  | Timeout => _tick
  | ClickPause => _toggle_pause
  | ClickCancel => _cancel
  | Resized w h => resizeEvent w h
  | Exposed => showEvent
  end.

(** An overlay together with the signals it has emitted so far. *)
Record World : Type := {
  ow : Overlay;
  log : list Signal
}.

(** One turn of the event loop.  An exception that leaves a slot ends
    the program: there is no next world. *)
Definition dispatch (ev : Event) (w : World) : option World :=
  if enabled ev (ow w) then
    let r := handler ev (ow w) in
    match result r with
    | inr _ => Some {| ow := state r; log := log w ++ emitted r |}
    | inl _ => None
    end
  else None.

Fixpoint run_events (evs : list Event) (w : World) : option World :=
  match evs with
  | [] => Some w
  | ev :: rest =>
      match dispatch ev w with
      | Some w' => run_events rest w'
      | None => None
      end
  end.

(** *** The top-level cycle *)

(** What one run of [start_cycle] does: quits the application, leaves
    without an overlay, dies in the constructor or in [show], or shows
    a new overlay. *)
Inductive Cycle : Type :=
| Quit
| NoOverlay
| Failed (e : Exn)
| Showing (o : Overlay).

(** The guard [dur > 0 and url]. *)
Definition may_start (dur : Z) (url : string) : bool :=
  (0 <? dur) && Py.truthy url.

(** [start_cycle]; [answer] is what the dialog holds when the user
    presses Start and [None] when the dialog is dismissed. *)
Definition start_cycle (env : Env) (limit : nat) (answer : option SetupDialog)
  : Cycle :=
  match answer with
  | Some dlg =>
      let (dur, url) := get_values limit dlg in
      if may_start dur url then
        match OverlayWindow_init env IMAGE_PATH dur url with
        | inl e => Failed e
        | inr o =>
            let r := show o in
            match result r with
            | inl e => Failed e
            | inr _ => Showing (state r)
            end
        end
      else NoOverlay
  | None => Quit
  end.

End Methods.

(** The libraries as they behave: stopping, starting and pausing a
    [QTimer], a [QMovie] or a [MediaPlayer] raises nothing. *)
Definition quiet : Call -> Overlay -> bool := fun _ _ => false.

(** The overlay is over: timer stopped, player stopped, the movie of a
    GIF stopped, window closed. *)
Definition terminal (s : Overlay) : bool :=
  negb (timer_active s)
  && match player s with PStopped => true | _ => false end
  && (negb (is_gif s)
      || match movie s with Some NotRunning | None => true | _ => false end)
  && match window s with Closed => true | _ => false end.

(** The overlay as [start_cycle] leaves it on screen. *)
Definition launched (gif : bool) (w0 h0 d : Z) : Overlay :=
  state (show quiet (_layout (constructed gif w0 h0 d))).


(** ** Vocabulary of the statements *)

(** A text made of white space only. *)
Fixpoint all_space (s : string) : bool :=
  match s with
  | EmptyString => true
  | String c r => Py.is_space c && all_space r
  end.

(** The text starts with white space. *)
Definition head_space (s : string) : bool :=
  match s with
  | EmptyString => false
  | String c _ => Py.is_space c
  end.

(** The text ends with white space. *)
Fixpoint last_space (s : string) : bool :=
  match s with
  | EmptyString => false
  | String c EmptyString => Py.is_space c
  | String _ r => last_space r
  end.

(** A method that leaves [proj] of the overlay as it was, whether it
    returns or raises. *)
Definition preserves {A B : Type} (proj : Overlay -> B) (m : M A) : Prop :=
  forall s, proj (state (m s)) = proj s.

(** A method that returns from every state. *)
Definition total {A : Type} (m : M A) : Prop :=
  forall s, exists a, result (m s) = inr a.

(** The overlay and its log when the event loop takes over. *)
Definition start_world (gif : bool) (w0 h0 d : Z) : World :=
  {| ow := launched gif w0 h0 d; log := [] |}.

(** What the event loop maintains for an overlay of duration [d]: while
    the window is on screen the count is below [d], nothing was emitted
    and a running timer means the pause flag is unset; once the window is
    closed the overlay is terminal and [finished] was emitted once. *)
Definition inv (d : Z) (w : World) : Prop :=
  duration (ow w) = d
  /\ 0 <= elapsed (ow w) <= d
  /\ match window (ow w) with
     | Visible =>
         elapsed (ow w) < d /\ log w = []
         /\ (timer_active (ow w) = true -> paused (ow w) = false)
     | Closed => terminal (ow w) = true /\ log w = [finished]
     | Hidden => False
     end.

(** [n] calls of the tick slot. *)
Definition ticks (n : nat) : M unit := times n (_tick quiet).

(** [k] ticks, Pause, [n] ticks, Resume, [m] ticks. *)
Definition pause_scenario (k n m : nat) : M unit :=
  ticks k ;; _toggle_pause quiet ;; ticks n ;; _toggle_pause quiet ;; ticks m.


(** ** The rest of the window: controls, position, dragging *)

(** The test the constructor makes on the path of the asset. *)
Definition is_gif_path (path : string) : bool :=
  Py.endswith (Py.lower path) ".gif".

(** A rectangle: left, top, width, height. *)
Record Rect : Type := {
  rx : Z;
  ry : Z;
  rw : Z;
  rh : Z
}.

(** The fixed sizes: both buttons are 140 by 40, the grip is 30 by 30. *)
Definition BTN_W : Z := 140.
Definition BTN_H : Z := 40.
Definition GRIP : Z := 30.

(** Where [_layout] puts the children of the window. *)
Record Controls : Type := {
  label_rect : Rect;
  progress_rect : Rect;
  pause_rect : Rect;
  cancel_rect : Rect;
  grip_rect : Rect
}.

(** The geometry part of [OverlayWindow._layout], from the window size
    and the height of the control strip. *)
Definition _layout_controls (s : Overlay) : Controls :=
  let w := win_w (geom s) in
  let h := win_h (geom s) in
  let img_h := h - ctrl_h (geom s) in
  let gap := 20 in
  let total_width := BTN_W + gap + BTN_W in
  let x0 := (w - total_width) / 2 in
  let y0 := img_h + 60 in
  {| label_rect := {| rx := 0; ry := 0; rw := w; rh := img_h |};
     progress_rect := {| rx := 10; ry := img_h + 10; rw := w - 20; rh := 40 |};
     pause_rect := {| rx := x0; ry := y0; rw := BTN_W; rh := BTN_H |};
     cancel_rect := {| rx := x0 + BTN_W + gap; ry := y0;
                       rw := BTN_W; rh := BTN_H |};
     grip_rect := {| rx := w - GRIP; ry := h - GRIP; rw := GRIP; rh := GRIP |} |}.

(** Two rectangles share a pixel. *)
Definition overlaps (a b : Rect) : bool :=
  (rx a <? rx b + rw b) && (rx b <? rx a + rw a)
  && (ry a <? ry b + rh b) && (ry b <? ry a + rh a).

(** A point of the screen ([QPoint]) and the difference of two. *)
Definition Point : Type := (Z * Z)%type.

Definition psub (a b : Point) : Point := (fst a - fst b, snd a - snd b).

(** Where the window is and the attribute [_drag], which exists only
    once [mousePressEvent] has set it. *)
Record Placement : Type := {
  pos : Point;
  _drag : option Point
}.

(** Reading an attribute that was never set. *)
Inductive MouseExn : Type := AttributeError.

(** The position the constructor moves the window to, on a screen of
    the given size. *)
Definition centred (scr_w scr_h : Z) (o : Overlay) : Placement :=
  {| pos := ((scr_w - init_w (geom o)) / 2, (scr_h - init_h (geom o)) / 2);
     _drag := None |}.

(** [OverlayWindow.mousePressEvent]; [lbtn] tells that the button of
    the event is the left one, [g] is the global position. *)
Definition mousePressEvent (lbtn : bool) (g : Point) (p : Placement)
  : Placement :=
  if lbtn then {| pos := pos p; _drag := Some (psub g (pos p)) |} else p.

(** [OverlayWindow.mouseMoveEvent]; [lbtn] tells that the left button
    is held. *)
Definition mouseMoveEvent (lbtn : bool) (g : Point) (p : Placement)
  : MouseExn + Placement :=
  if lbtn then
    match _drag p with
    | Some d => inr {| pos := psub g d; _drag := _drag p |}
    | None => inl AttributeError
    end
  else inr p.

Inductive MouseEvent : Type :=
| Press (lbtn : bool) (g : Point)
| Move (lbtn : bool) (g : Point).

(** Mouse events handled one after the other, up to the first that
    raises. *)
Fixpoint run_mouse (evs : list MouseEvent) (p : Placement)
  : MouseExn + Placement :=
  match evs with
  | [] => inr p
  | Press lbtn g :: rest => run_mouse rest (mousePressEvent lbtn g p)
  | Move lbtn g :: rest =>
      match mouseMoveEvent lbtn g p with
      | inr p' => run_mouse rest p'
      | inl e => inl e
      end
  end.

Definition is_left_press (ev : MouseEvent) : bool :=
  match ev with Press lbtn _ => lbtn | Move _ _ => false end.

Definition is_move (ev : MouseEvent) : bool :=
  match ev with Press _ _ => false | Move _ _ => true end.

(** ** Vocabulary of the further statements *)

(** The number of timeouts in a list of events. *)
Fixpoint count_timeouts (evs : list Event) : nat :=
  match evs with
  | [] => O
  | Timeout :: rest => S (count_timeouts rest)
  | _ :: rest => count_timeouts rest
  end.

Definition is_click (ev : Event) : bool :=
  match ev with ClickPause | ClickCancel => true | _ => false end.

(** What the widgets show agrees with the fields: the bar shows
    [elapsed] out of [duration], the button names the next action, a
    movie exists for a GIF only; on screen the timer runs exactly when
    the pause flag is unset, and then the audio plays too. *)
Definition ui_inv (w : World) : Prop :=
  let s := ow w in
  progress_value s = elapsed s
  /\ progress_max s = duration s
  /\ pause_text s = (if paused s then "Resume" else "Pause")
  /\ (movie s = None <-> is_gif s = false)
  /\ (window s = Visible ->
      timer_active s = negb (paused s)
      /\ (paused s = false -> player s = PPlaying)).



(** * Properties *)

(** ** Trimming *)

Lemma lstrip_split (s : string) :
  exists pre, s = pre ++ Py.lstrip_by Py.is_space s /\ all_space pre = true.
Proof.
  induction s as [|c r [pre [Hr Hp]]].
  - exists EmptyString. split; reflexivity.
  - cbn [Py.lstrip_by]. destruct (Py.is_space c) eqn:Hc.
    + exists (String c pre). cbn. rewrite Hc, Hp. split; [now f_equal | reflexivity].
    + exists EmptyString. split; reflexivity.
Qed.

Lemma lstrip_head (s : string) :
  head_space (Py.lstrip_by Py.is_space s) = false.
Proof.
  induction s as [|c r IH]; [reflexivity|].
  cbn [Py.lstrip_by]. destruct (Py.is_space c) eqn:Hc; [exact IH | exact Hc].
Qed.

Lemma rstrip_split (s : string) :
  exists post, s = Py.rstrip_by Py.is_space s ++ post /\ all_space post = true.
Proof.
  induction s as [|c r [post [Hr Hp]]].
  - exists EmptyString. split; reflexivity.
  - cbn [Py.rstrip_by]. destruct (Py.rstrip_by Py.is_space r) eqn:Hs.
    + destruct (Py.is_space c) eqn:Hc.
      * exists (String c r). cbn. rewrite Hc. cbn in Hr. subst post.
        rewrite Hp. split; reflexivity.
      * exists post. cbn in *. split; [now f_equal | exact Hp].
    + exists post. split; [|exact Hp]. cbn in *. now f_equal.
Qed.

Lemma rstrip_last (s : string) :
  last_space (Py.rstrip_by Py.is_space s) = false.
Proof.
  induction s as [|c r IH]; [reflexivity|].
  cbn [Py.rstrip_by]. destruct (Py.rstrip_by Py.is_space r) eqn:Hs.
  - destruct (Py.is_space c) eqn:Hc; cbn; [reflexivity | exact Hc].
  - exact IH.
Qed.

Lemma rstrip_head (s : string) :
  head_space s = false -> head_space (Py.rstrip_by Py.is_space s) = false.
Proof.
  destruct s as [|c r]; [reflexivity|].
  cbn [Py.rstrip_by head_space]. intros Hc.
  destruct (Py.rstrip_by Py.is_space r); [rewrite Hc|]; cbn; auto.
Qed.

(** [strip] removes white space at both ends and nothing else. *)
Lemma strip_trims (s : string) :
  (exists pre post,
      s = pre ++ Py.strip s ++ post
      /\ all_space pre = true /\ all_space post = true)
  /\ head_space (Py.strip s) = false
  /\ last_space (Py.strip s) = false.
Proof.
  unfold Py.strip. split; [|split].
  - destruct (lstrip_split s) as [pre [H1 Hpre]].
    destruct (rstrip_split (Py.lstrip_by Py.is_space s)) as [post [H2 Hpost]].
    exists pre, post. rewrite <- H2. auto.
  - apply rstrip_head, lstrip_head.
  - apply rstrip_last.
Qed.

(** ** The setup dialog *)

(** C5: [get_values] parses the duration field to an integer and gives 0
    when the parse fails: the field "abc" gives 0, the field "45" gives
    45; the link comes back with the white space at both ends removed. *)
Theorem get_values_parses (limit : nat) (dlg : SetupDialog) :
  (forall n, Py.int limit (duration_input dlg) = inr n ->
             fst (get_values limit dlg) = n)
  /\ (forall e, Py.int limit (duration_input dlg) = inl e ->
                fst (get_values limit dlg) = 0)
  /\ get_values limit {| duration_input := "abc"; url_input := url_input dlg |}
     = (0, Py.strip (url_input dlg))
  /\ get_values limit {| duration_input := "45"; url_input := url_input dlg |}
     = (45, Py.strip (url_input dlg))
  /\ (exists pre post,
         url_input dlg = pre ++ snd (get_values limit dlg) ++ post
         /\ all_space pre = true /\ all_space post = true)
  /\ head_space (snd (get_values limit dlg)) = false
  /\ last_space (snd (get_values limit dlg)) = false.
Proof.
  unfold get_values. cbn [fst snd].
  split; [intros n H; now rewrite H|].
  split; [intros e H; now rewrite H|].
  split; [reflexivity|]. split; [reflexivity|].
  apply strip_trims.
Qed.

(** C9: [get_values] always returns a pair: the duration is what [int]
    returned, or 0 when [int] raised, whatever it raised; a signed
    literal is no failure, the field "-5" gives -5. *)
Theorem get_values_total (limit : nat) (dlg : SetupDialog) :
  (exists n url,
      get_values limit dlg = (n, url)
      /\ (Py.int limit (duration_input dlg) = inr n
          \/ (exists e, Py.int limit (duration_input dlg) = inl e) /\ n = 0))
  /\ get_values limit {| duration_input := "-5"; url_input := url_input dlg |}
     = (-5, Py.strip (url_input dlg)).
Proof.
  split; [|reflexivity].
  unfold get_values.
  destruct (Py.int limit (duration_input dlg)) as [e|n] eqn:H.
  - exists 0, (Py.strip (url_input dlg)). split; [reflexivity|].
    right. split; [now exists e | reflexivity].
  - exists n, (Py.strip (url_input dlg)). split; [reflexivity | now left].
Qed.

(** ** The top-level cycle *)

Lemma truthy_nonempty (s : string) : Py.truthy s = true <-> s <> EmptyString.
Proof. destruct s; cbn; split; congruence. Qed.

Lemma may_start_iff (dur : Z) (url : string) :
  may_start dur url = true <-> 0 < dur /\ url <> EmptyString.
Proof.
  unfold may_start. rewrite andb_true_iff, Z.ltb_lt, truthy_nonempty. tauto.
Qed.

Lemma start_cycle_none (raises : Call -> Overlay -> bool) (env : Env)
  (limit : nat) (dlg : SetupDialog) :
  start_cycle raises env limit (Some dlg) = NoOverlay
  <-> may_start (fst (get_values limit dlg)) (snd (get_values limit dlg)) = false.
Proof.
  unfold start_cycle. destruct (get_values limit dlg) as [dur url].
  cbn [fst snd]. destruct (may_start dur url).
  - destruct (OverlayWindow_init env IMAGE_PATH dur url) as [e|o];
      [|destruct (result (show raises o))]; split; discriminate.
  - split; reflexivity.
Qed.

(** C6: after Start, an empty link or a duration that is not positive
    leaves [start_cycle] without constructing an overlay; the constructor
    runs only for a positive duration and a non-empty link. *)
Theorem start_cycle_guard (raises : Call -> Overlay -> bool) (env : Env)
  (limit : nat) (dlg : SetupDialog) :
  let dur := fst (get_values limit dlg) in
  let url := snd (get_values limit dlg) in
  (start_cycle raises env limit (Some dlg) = NoOverlay
   <-> (url = EmptyString \/ dur <= 0))
  /\ (start_cycle raises env limit (Some dlg) <> NoOverlay
      <-> (0 < dur /\ url <> EmptyString)).
Proof.
  cbn zeta. rewrite start_cycle_none.
  generalize (fst (get_values limit dlg)) (snd (get_values limit dlg)).
  intros dur url. pose proof (may_start_iff dur url) as H.
  assert (N : may_start dur url = false <-> (url = EmptyString \/ dur <= 0)).
  { rewrite <- not_true_iff_false, H. split.
    - intros G. destruct url as [|c u]; [now left|].
      right. destruct (Z.le_gt_cases dur 0) as [L|L]; [exact L|].
      exfalso. apply G. split; [lia | discriminate].
    - intros [G|G] [L K]; [congruence | lia]. }
  split; [exact N|].
  rewrite <- H. destruct (may_start dur url); split; congruence.
Qed.

(** ** The initial size *)

Lemma half_of_int (n : Z) : int_of_float (inject_Z n * FIXED_SCALE) = Z.quot n 2.
Proof. unfold int_of_float, FIXED_SCALE. cbn. now rewrite Z.mul_1_r. Qed.

(** A pixmap scaled into a box that is not empty lies within the box
    and takes all of its width or all of its height. *)
Lemma pixmap_scaled_fits (wd ht sw sh : Z) :
  0 < wd -> 0 < ht -> 1 <= sw -> 1 <= sh ->
  1 <= fst (pixmap_scaled (wd, ht) (sw, sh)) <= sw
  /\ 1 <= snd (pixmap_scaled (wd, ht) (sw, sh)) <= sh
  /\ (fst (pixmap_scaled (wd, ht) (sw, sh)) = sw
      \/ snd (pixmap_scaled (wd, ht) (sw, sh)) = sh).
Proof.
  intros Hwd Hht Hsw Hsh. unfold pixmap_scaled, size_empty, qsize_scaled.
  cbn [fst snd].
  replace (sw <? 1) with false by (symmetry; apply Z.ltb_ge; lia).
  replace (sh <? 1) with false by (symmetry; apply Z.ltb_ge; lia).
  replace (wd =? 0) with false by (symmetry; apply Z.eqb_neq; lia).
  replace (ht =? 0) with false by (symmetry; apply Z.eqb_neq; lia).
  cbn [orb].
  rewrite (Z.quot_div_nonneg (sh * wd) ht) by nia.
  rewrite (Z.quot_div_nonneg (sw * ht) wd) by nia.
  destruct (sh * wd / ht <=? sw) eqn:Hb; cbn [fst snd].
  - apply Z.leb_le in Hb. lia.
  - apply Z.leb_gt in Hb.
    assert (H1 : ht * (sh * wd / ht) <= sh * wd)
      by (apply Z.mul_div_le; lia).
    assert (H2 : sw * ht / wd <= sh)
      by (apply Z.div_le_upper_bound; nia).
    lia.
Qed.

(** A pixmap of even width and height scaled into the box of half its
    size fills the box. *)
Lemma pixmap_scaled_half (a b : Z) :
  0 < a -> 0 < b -> pixmap_scaled (2 * a, 2 * b) (a, b) = (a, b).
Proof.
  intros Ha Hb. unfold pixmap_scaled, size_empty, qsize_scaled.
  cbn [fst snd].
  replace (a <? 1) with false by (symmetry; apply Z.ltb_ge; lia).
  replace (b <? 1) with false by (symmetry; apply Z.ltb_ge; lia).
  replace (2 * a =? 0) with false by (symmetry; apply Z.eqb_neq; lia).
  replace (2 * b =? 0) with false by (symmetry; apply Z.eqb_neq; lia).
  cbn [orb].
  rewrite (Z.quot_div_nonneg (b * (2 * a)) (2 * b)) by nia.
  replace (b * (2 * a)) with (a * (2 * b)) by ring.
  rewrite Z.div_mul by lia.
  rewrite Z.leb_refl. cbn [fst snd]. f_equal; lia.
Qed.

(** C8, as the code has it for an image that is no GIF: the overlay
    comes out of its constructor with the label box and the window
    width at half the native width and height, a half pixel being
    dropped.  The pixmap shown is the image scaled into that box
    keeping its proportions: it is never larger than the box, in a box
    that is not empty it takes all of the box's width or height, and it
    is exactly half the native size when width and height are even. *)
Theorem initial_size_static (env : Env) (path url : string) (d w0 h0 : Z)
  (o : Overlay) :
  is_gif_path path = false ->
  0 < w0 -> 0 < h0 ->
  load_asset env path = Some (w0, h0) ->
  OverlayWindow_init env path d url = inr o ->
  let g := geom o in
  (init_w g = w0 / 2 /\ init_h g = h0 / 2)
  /\ (asset_w g = w0 / 2 /\ asset_h g = h0 / 2)
  /\ (win_w g = w0 / 2 /\ win_h g = h0 / 2 + 100)
  /\ (shown_w g <= w0 / 2 /\ shown_h g <= h0 / 2)
  /\ (2 <= w0 -> 2 <= h0 ->
      1 <= shown_w g /\ 1 <= shown_h g
      /\ (shown_w g = w0 / 2 \/ shown_h g = h0 / 2))
  /\ (Z.even w0 = true -> Z.even h0 = true ->
      shown_w g = w0 / 2 /\ shown_h g = h0 / 2
      /\ 2 * shown_w g = w0 /\ 2 * shown_h g = h0).
Proof.
  intros Hgif Hw Hh Hload Hinit. unfold OverlayWindow_init in Hinit.
  unfold is_gif_path in Hgif. rewrite Hgif, Hload in Hinit.
  destruct (is_c_int d); [|discriminate].
  destruct (extract_info env url); [|discriminate].
  destruct (dll_directory env); [|discriminate].
  injection Hinit as <-.
  unfold _layout, constructed, size_read, shown_in.
  cbn [geom set_geom is_gif native_w native_h asset_w asset_h init_w init_h
       win_w win_h ctrl_h shown_w shown_h fst snd].
  rewrite !half_of_int, !Z.quot_div_nonneg by lia.
  replace (h0 / 2 + 100 - 100) with (h0 / 2) by lia.
  pose proof (Z.div_mod w0 2 ltac:(lia)) as Dw.
  pose proof (Z.mod_pos_bound w0 2 ltac:(lia)) as Mw.
  pose proof (Z.div_mod h0 2 ltac:(lia)) as Dh.
  pose proof (Z.mod_pos_bound h0 2 ltac:(lia)) as Mh.
  split; [auto|]. split; [auto|]. split; [auto|].
  assert (Hfit : 2 <= w0 -> 2 <= h0 ->
                 1 <= fst (pixmap_scaled (w0, h0) (w0 / 2, h0 / 2)) <= w0 / 2
                 /\ 1 <= snd (pixmap_scaled (w0, h0) (w0 / 2, h0 / 2)) <= h0 / 2
                 /\ (fst (pixmap_scaled (w0, h0) (w0 / 2, h0 / 2)) = w0 / 2
                     \/ snd (pixmap_scaled (w0, h0) (w0 / 2, h0 / 2)) = h0 / 2)).
  { intros W2 H2. apply pixmap_scaled_fits; lia. }
  split; [|split].
  - destruct (Z.le_gt_cases 2 w0) as [W2|W1];
      [destruct (Z.le_gt_cases 2 h0) as [H2|H1]|].
    + destruct (Hfit W2 H2) as (A & B & _). lia.
    + unfold pixmap_scaled, size_empty. cbn [fst snd].
      replace (h0 / 2 <? 1) with true by (symmetry; apply Z.ltb_lt; lia).
      rewrite orb_true_r. cbn [fst snd]. lia.
    + unfold pixmap_scaled, size_empty. cbn [fst snd].
      replace (w0 / 2 <? 1) with true by (symmetry; apply Z.ltb_lt; lia).
      cbn [orb fst snd]. lia.
  - intros W2 H2. destruct (Hfit W2 H2) as (A & B & C). lia.
  - intros Ew Eh. apply Z.even_spec in Ew, Eh.
    destruct Ew as [a ->]. destruct Eh as [b ->].
    replace (2 * a / 2) with a by (rewrite Z.mul_comm, Z.div_mul; lia).
    replace (2 * b / 2) with b by (rewrite Z.mul_comm, Z.div_mul; lia).
    rewrite pixmap_scaled_half by lia. cbn [fst snd]. lia.
Qed.

(** At 640 by 481 the box is 320 by 240 and the pixmap shown in it is
    319 by 240: not half the native width. *)
Lemma initial_size_half_counterexample :
  let env := {| load_asset := fun _ => Some (640, 481);
                extract_info := fun u => Some u;
                dll_directory := true |} in
  exists o,
    OverlayWindow_init env IMAGE_PATH 5 "https://example.org/v" = inr o
    /\ shown_w (geom o) = 319 /\ shown_h (geom o) = 240
    /\ shown_w (geom o) <> 640 / 2.
Proof.
  cbn zeta. eexists. split; [reflexivity|].
  split; [reflexivity|]. split; [reflexivity|]. discriminate.
Qed.

(** ** Reasoning about methods *)

(** How [bind] runs when its first part returns. *)
Lemma bind_returns {A B : Type} (m : M A) (k : A -> M B) (s : Overlay) (a : A) :
  result (m s) = inr a ->
  bind m k s = mkOut (state (k a (state (m s))))
                     (emitted (m s) ++ emitted (k a (state (m s))))
                     (result (k a (state (m s)))).
Proof.
  unfold bind. destruct (m s) as [s1 o1 r]. cbn. intros ->.
  now destruct (k a s1).
Qed.

Section Frame.

Context {B : Type} (proj : Overlay -> B).


Lemma bind_frame {A C : Type} (m : M A) (k : A -> M C) (s : Overlay) :
  (forall a, preserves proj (k a)) ->
  proj (state (bind m k s)) = proj (state (m s)).
Proof.
  intros Hk. unfold bind. destruct (m s) as [s1 o1 [e|a]]; cbn; [reflexivity|].
  specialize (Hk a s1). now destruct (k a s1).
Qed.

Lemma preserves_ret {A : Type} (a : A) : preserves proj (ret a).
Proof. intros s. reflexivity. Qed.

Lemma preserves_gets {A : Type} (f : Overlay -> A) : preserves proj (gets f).
Proof. intros s. reflexivity. Qed.

Lemma preserves_emit (sg : Signal) : preserves proj (emit sg).
Proof. intros s. reflexivity. Qed.

Lemma preserves_modify (f : Overlay -> Overlay) :
  (forall s, proj (f s) = proj s) -> preserves proj (modify f).
Proof. intros H s. apply H. Qed.

Lemma preserves_bind {A C : Type} (m : M A) (k : A -> M C) :
  preserves proj m -> (forall a, preserves proj (k a)) -> preserves proj (bind m k).
Proof. intros Hm Hk s. rewrite bind_frame by exact Hk. apply Hm. Qed.

Lemma preserves_when (b : bool) (m : M unit) :
  preserves proj m -> preserves proj (when b m).
Proof. intros H. destruct b; [exact H | apply preserves_ret]. Qed.

Lemma preserves_try_pass (m : M unit) : preserves proj m -> preserves proj (try_pass m).
Proof.
  intros H s. unfold try_pass. specialize (H s).
  now destruct (m s) as [s1 o1 [e|a]].
Qed.

Lemma preserves_call (raises : Call -> Overlay -> bool) (c : Call)
  (f : Overlay -> Overlay) :
  (forall s, proj (f s) = proj s) -> preserves proj (call raises c f).
Proof. intros H s. unfold call. destruct (raises c s); cbn; auto. Qed.

End Frame.

Create HintDb frame.
#[local] Hint Resolve preserves_ret preserves_gets preserves_emit
  preserves_bind preserves_when preserves_try_pass : frame.

Ltac frame_lib :=
  unfold timer_start, timer_stop, player_play, player_pause, player_stop,
    movie_start_, movie_setPaused_, movie_stop, close;
  first [apply preserves_call | apply preserves_modify]; intros; reflexivity.

Section ElapsedFrame.

Variable raises : Call -> Overlay -> bool.

Lemma timer_start_elapsed : preserves elapsed (timer_start raises).
Proof. frame_lib. Qed.
Lemma timer_stop_elapsed : preserves elapsed (timer_stop raises).
Proof. frame_lib. Qed.
Lemma player_play_elapsed : preserves elapsed (player_play raises).
Proof. frame_lib. Qed.
Lemma player_pause_elapsed : preserves elapsed (player_pause raises).
Proof. frame_lib. Qed.
Lemma player_stop_elapsed : preserves elapsed (player_stop raises).
Proof. frame_lib. Qed.
Lemma movie_start_elapsed : preserves elapsed (movie_start_ raises).
Proof. frame_lib. Qed.
Lemma movie_setPaused_elapsed b : preserves elapsed (movie_setPaused_ raises b).
Proof. frame_lib. Qed.
Lemma movie_stop_elapsed : preserves elapsed (movie_stop raises).
Proof. frame_lib. Qed.
Lemma close_elapsed : preserves elapsed close.
Proof. frame_lib. Qed.

#[local] Hint Resolve timer_start_elapsed timer_stop_elapsed player_play_elapsed
  player_pause_elapsed player_stop_elapsed movie_start_elapsed
  movie_setPaused_elapsed movie_stop_elapsed close_elapsed : frame.

Lemma finish_elapsed : preserves elapsed (_finish raises).
Proof. unfold _finish. auto 10 with frame. Qed.

Lemma cancel_elapsed : preserves elapsed (_cancel raises).
Proof. unfold _cancel. pose proof finish_elapsed. auto 10 with frame. Qed.

Lemma toggle_pause_elapsed : preserves elapsed (_toggle_pause raises).
Proof.
  unfold _toggle_pause. apply preserves_bind; [auto with frame|].
  intros p. destruct (negb p);
    repeat (apply preserves_bind; [auto with frame; frame_lib | intros ?]);
    try (apply preserves_when; auto with frame); frame_lib.
Qed.

Lemma showEvent_elapsed : preserves elapsed (showEvent raises).
Proof. unfold showEvent. auto 10 with frame. Qed.

Lemma resizeEvent_elapsed w h : preserves elapsed (resizeEvent w h).
Proof. unfold resizeEvent. apply preserves_modify. reflexivity. Qed.

Lemma progress_setValue_elapsed v s :
  elapsed (progress_setValue v s) = elapsed s.
Proof. unfold progress_setValue. now destruct (_ && _). Qed.

Lemma tick_elapsed (s : Overlay) :
  elapsed (state (_tick raises s))
  = if paused s then elapsed s else elapsed s + 1.
Proof.
  unfold _tick. rewrite (bind_returns _ _ s (paused s)) by reflexivity.
  cbn [state gets]. destruct (paused s); [reflexivity|].
  cbn [negb when]. rewrite bind_frame; [reflexivity|].
  intros _. apply preserves_bind; [auto with frame|]. intros e.
  apply preserves_bind;
    [apply preserves_modify; intros; apply progress_setValue_elapsed|].
  pose proof finish_elapsed. auto 10 with frame.
Qed.

End ElapsedFrame.

(** ** The elapsed counter *)

(** C10: no operation of the overlay lowers [elapsed].  [_tick] adds
    exactly 1 when the pause flag is unset and changes nothing when it is
    set; [_toggle_pause], [_cancel] and [_finish] leave [elapsed] alone,
    and so do the show and resize handlers.  This holds whether or not
    the library calls raise on the way. *)
Theorem elapsed_monotone (raises : Call -> Overlay -> bool) (s : Overlay) :
  elapsed (state (_tick raises s))
  = (if paused s then elapsed s else elapsed s + 1)
  /\ elapsed (state (_toggle_pause raises s)) = elapsed s
  /\ elapsed (state (_cancel raises s)) = elapsed s
  /\ elapsed (state (_finish raises s)) = elapsed s
  /\ (forall ev, elapsed s <= elapsed (state (handler raises ev s))).
Proof.
  split; [apply tick_elapsed|].
  split; [apply toggle_pause_elapsed|].
  split; [apply cancel_elapsed|].
  split; [apply finish_elapsed|].
  intros [| | |w h|]; cbn [handler].
  - rewrite tick_elapsed. destruct (paused s); lia.
  - rewrite toggle_pause_elapsed. lia.
  - rewrite cancel_elapsed. lia.
  - rewrite resizeEvent_elapsed. lia.
  - rewrite showEvent_elapsed. lia.
Qed.

(** ** Methods that cannot raise *)


Lemma total_ret {A : Type} (a : A) : total (ret a).
Proof. intros s. now exists a. Qed.

Lemma total_gets {A : Type} (f : Overlay -> A) : total (gets f).
Proof. intros s. now exists (f s). Qed.

Lemma total_modify (f : Overlay -> Overlay) : total (modify f).
Proof. intros s. now exists tt. Qed.

Lemma total_emit (sg : Signal) : total (emit sg).
Proof. intros s. now exists tt. Qed.

Lemma total_bind {A B : Type} (m : M A) (k : A -> M B) :
  total m -> (forall a, total (k a)) -> total (bind m k).
Proof.
  intros Hm Hk s. destruct (Hm s) as [a Ha].
  rewrite (bind_returns _ _ _ _ Ha). cbn. apply Hk.
Qed.

Lemma total_when (b : bool) (m : M unit) : total m -> total (when b m).
Proof. intros H. destruct b; [exact H | apply total_ret]. Qed.

(** Whatever [m] does, [try: m except: pass] returns. *)
Lemma total_try_pass (m : M unit) : total (try_pass m).
Proof.
  intros s. unfold try_pass. destruct (m s) as [s1 o1 [e|[]]]; now exists tt.
Qed.

Lemma total_unit (m : M unit) (s : Overlay) : total m -> result (m s) = inr tt.
Proof. intros H. destruct (H s) as [[] Ha]. exact Ha. Qed.

#[local] Hint Resolve total_ret total_gets total_modify total_emit total_bind
  total_when total_try_pass : frame.

Lemma finish_total (raises : Call -> Overlay -> bool) : total (_finish raises).
Proof. unfold _finish, close. auto 10 with frame. Qed.

Ltac run_methods :=
  unfold _tick, _toggle_pause, _cancel, _finish, showEvent, show, resizeEvent,
    timer_start, timer_stop, player_play, player_pause, player_stop,
    movie_start_, movie_setPaused_, movie_stop, close, call, quiet,
    bind, gets, modify, emit, when, try_pass, ret, on_movie,
    progress_setValue in *;
  cbn in *.

(** ** Finish *)

(** Each call of [_finish] emits the signal once more. *)
Lemma finish_emits (raises : Call -> Overlay -> bool) (s : Overlay) :
  emitted (_finish raises s) = [finished].
Proof.
  run_methods.
  destruct (raises TimerStop s); cbn;
    (destruct (raises PlayerStop _); cbn);
    (destruct (is_gif s) eqn:G; cbn; rewrite ?G; cbn; [|reflexivity]);
    (destruct (raises MovieStop _); reflexivity).
Qed.

Lemma finish_twice_emits_twice (raises : Call -> Overlay -> bool) (s : Overlay) :
  emitted ((_finish raises ;; _finish raises) s) = [finished; finished].
Proof.
  unfold bind. pose proof (finish_emits raises s) as H1.
  pose proof (total_unit _ s (finish_total raises)) as R1.
  destruct (_finish raises s) as [s1 o1 r1]. cbn in H1, R1. subst o1 r1.
  pose proof (finish_emits raises s1) as H2.
  destruct (_finish raises s1) as [s2 o2 r2]. cbn in H2. now subst o2.
Qed.

(** C3: [_finish] is idempotent.  It never raises, whatever the three
    stop calls do, because each of them is tried and its exception
    dropped; run twice in a row it leaves the fields it leaves when run
    once, for every way the stop calls may fail or succeed; with calls
    that succeed these fields are the terminal ones. *)
Theorem finish_idempotent :
  (forall (raises : Call -> Overlay -> bool) (s : Overlay),
      result (_finish raises s) = inr tt
      /\ result ((_finish raises ;; _finish raises) s) = inr tt)
  /\ (forall (faulty : Call -> bool) (s : Overlay),
         let raises := fun c (_ : Overlay) => faulty c in
         state ((_finish raises ;; _finish raises) s)
         = state (_finish raises s))
  /\ (forall s : Overlay, terminal (state (_finish quiet s)) = true).
Proof.
  split; [|split].
  - intros raises s. split; apply total_unit.
    + apply finish_total.
    + apply total_bind; intros; apply finish_total.
  - intros faulty [gif mv g pm pv pt p du e ta pl win]. cbn zeta.
    run_methods.
    destruct (faulty TimerStop), (faulty PlayerStop), gif, (faulty MovieStop);
      cbn; try reflexivity; destruct mv; reflexivity.
  - intros [gif mv g pm pv pt p du e ta pl win].
    run_methods. destruct gif; [destruct mv|]; reflexivity.
Qed.

(** ** Cancel *)

(** C7: cancelling at an elapsed count below the duration ends the
    overlay at once: the method returns, timer, player and movie are
    stopped, the window is closed, [finished] is emitted once, and
    [elapsed] stays where it was, below the duration. *)
Theorem cancel_finishes (s : Overlay) :
  0 <= elapsed s < duration s ->
  let r := _cancel quiet s in
  result r = inr tt
  /\ emitted r = [finished]
  /\ terminal (state r) = true
  /\ elapsed (state r) = elapsed s
  /\ duration (state r) = duration s
  /\ elapsed (state r) < duration (state r)
  /\ (forall l, window s = Visible ->
        dispatch quiet ClickCancel {| ow := s; log := l |}
        = Some {| ow := state r; log := l ++ [finished] |}).
Proof.
  destruct s as [gif mv g pm pv pt p du e ta pl win]. cbn [elapsed duration].
  intros He. cbn zeta. unfold dispatch, enabled, handler. cbn [ow log window].
  run_methods.
  destruct gif; [destruct mv|]; cbn; repeat split; try reflexivity; try lia;
    intros l ->; reflexivity.
Qed.

(** ** The running overlay *)


Lemma inv_start (gif : bool) (w0 h0 d : Z) :
  0 < d -> inv d (start_world gif w0 h0 d).
Proof.
  intros Hd. unfold inv, start_world, launched. destruct gif; cbn;
    repeat split; auto; lia.
Qed.

Lemma dispatch_inv (d : Z) (ev : Event) (w w' : World) :
  inv d w -> dispatch quiet ev w = Some w' -> inv d w'.
Proof.
  destruct w as [[gif mv g pm pv pt p du e ta pl win] l].
  unfold inv, dispatch, enabled. cbn [ow log window duration elapsed
    timer_active paused]. intros (Hd & He & Hw) H.
  destruct win; [contradiction| |].
  - (* on screen *)
    destruct Hw as (Hlt & -> & Hp).
    destruct ev as [| | |w h|]; cbn [handler] in H.
    + destruct ta; [|discriminate]. rewrite (Hp eq_refl) in *.
      run_methods.
      destruct (((pm <? e + 1) || (e + 1 <? 0)) && negb (pm =? 0));
        cbn in H; (destruct (du <=? e + 1) eqn:Hfin;
        [apply Z.leb_le in Hfin | apply Z.leb_gt in Hfin]; cbn in H);
        try (destruct gif; [destruct mv|]; cbn in H);
        injection H as <-; cbn; repeat split; auto; lia.
    + run_methods. destruct p; cbn in H;
        (destruct gif; cbn in H; injection H as <-; cbn;
         repeat split; auto; try lia; discriminate).
    + run_methods.
      destruct gif; [destruct mv|]; cbn in H; injection H as <-; cbn;
        repeat split; auto; lia.
    + run_methods. injection H as <-. cbn. repeat split; auto; lia.
    + run_methods. destruct gif; cbn in H; injection H as <-; cbn;
        repeat split; auto; lia.
  - (* closed: nothing is delivered *)
    destruct Hw as (Ht & ->). unfold terminal in Ht. cbn in Ht.
    destruct ta; [discriminate|]. destruct ev; discriminate.
Qed.

Lemma run_events_inv (d : Z) (evs : list Event) :
  forall w w', inv d w -> run_events quiet evs w = Some w' -> inv d w'.
Proof.
  induction evs as [|ev evs IH]; intros w w' Hi H; cbn in H.
  - now injection H as <-.
  - destruct (dispatch quiet ev w) as [w1|] eqn:Hs; [|discriminate].
    eapply IH; [|exact H]. eapply dispatch_inv; eauto.
Qed.

(** C1: in every state the event loop can bring a shown overlay of
    positive duration [d] to, the duration is still [d] and
    [0 <= elapsed <= duration]; when [elapsed] equals the duration the
    overlay is over (timer, player and movie stopped, window closed)
    and [finished] has been emitted exactly once; it is never emitted
    more than once. *)
Theorem elapsed_invariant (gif : bool) (w0 h0 d : Z) (evs : list Event)
  (w : World) :
  0 < d ->
  run_events quiet evs (start_world gif w0 h0 d) = Some w ->
  duration (ow w) = d
  /\ 0 <= elapsed (ow w) <= duration (ow w)
  /\ (elapsed (ow w) = duration (ow w) ->
      terminal (ow w) = true /\ log w = [finished])
  /\ (List.length (log w) <= 1)%nat.
Proof.
  intros Hd Hrun.
  pose proof (run_events_inv d evs _ _ (inv_start gif w0 h0 d Hd) Hrun)
    as (Hdur & He & Hw).
  rewrite Hdur. split; [reflexivity|]. split; [exact He|].
  destruct (window (ow w)); [contradiction| |].
  - destruct Hw as (Hlt & -> & _). split; [lia | cbn; lia].
  - destruct Hw as (Ht & ->). split; [auto | cbn; lia].
Qed.

(** ** Ticks *)

Lemma bind_seq {A B : Type} (m : M A) (k : A -> M B) (s s1 s2 : Overlay)
  (o1 o2 : list Signal) (a : A) (r : exc B) :
  m s = mkOut s1 o1 (inr a) ->
  k a s1 = mkOut s2 o2 r ->
  bind m k s = mkOut s2 (o1 ++ o2) r.
Proof. intros H1 H2. unfold bind. now rewrite H1, H2. Qed.

(** A tick below the duration counts and changes nothing else that
    matters to the timer. *)
Lemma tick_below (s : Overlay) :
  paused s = false -> elapsed s + 1 < duration s ->
  exists s',
    _tick quiet s = mkOut s' [] (inr tt)
    /\ elapsed s' = elapsed s + 1 /\ duration s' = duration s
    /\ paused s' = false /\ timer_active s' = timer_active s
    /\ window s' = window s.
Proof.
  destruct s as [gif mv g pm pv pt p du e ta pl win]. cbn [paused elapsed duration].
  intros -> Hlt. run_methods.
  destruct (((pm <? e + 1) || (e + 1 <? 0)) && negb (pm =? 0)); cbn;
    (destruct (du <=? e + 1) eqn:Hfin; [apply Z.leb_le in Hfin; lia|]);
    eexists; split; try reflexivity; cbn; auto.
Qed.

(** The tick that reaches the duration finishes the overlay. *)
Lemma tick_last (s : Overlay) :
  paused s = false -> duration s <= elapsed s + 1 ->
  exists s',
    _tick quiet s = mkOut s' [finished] (inr tt)
    /\ terminal s' = true
    /\ elapsed s' = elapsed s + 1 /\ duration s' = duration s
    /\ paused s' = false /\ window s' = Closed.
Proof.
  destruct s as [gif mv g pm pv pt p du e ta pl win]. cbn [paused elapsed duration].
  intros -> Hge. run_methods.
  destruct (((pm <? e + 1) || (e + 1 <? 0)) && negb (pm =? 0)); cbn;
    (destruct (du <=? e + 1) eqn:Hfin; [|apply Z.leb_gt in Hfin; lia]);
    (destruct gif; [destruct mv|]); cbn;
    eexists; split; try reflexivity; cbn; auto.
Qed.




Lemma times_below (n : nat) :
  forall s,
    paused s = false -> elapsed s + Z.of_nat n < duration s ->
    exists s',
      times n (_tick quiet) s = mkOut s' [] (inr tt)
      /\ elapsed s' = elapsed s + Z.of_nat n /\ duration s' = duration s
      /\ paused s' = false /\ timer_active s' = timer_active s
      /\ window s' = window s.
Proof.
  induction n as [|n IH]; intros s Hp Hlt.
  - exists s. cbn. repeat split; auto; lia.
  - destruct (tick_below s Hp ltac:(lia)) as (s1 & H1 & He & Hd & Hp1 & Ht & Hw).
    destruct (IH s1 Hp1 ltac:(lia)) as (s2 & H2 & He2 & Hd2 & Hp2 & Ht2 & Hw2).
    exists s2. cbn [times]. rewrite (bind_seq _ _ _ _ _ _ _ _ _ H1 H2).
    repeat split; auto; try congruence; lia.
Qed.

Lemma times_finish (n : nat) (s : Overlay) :
  paused s = false -> elapsed s + Z.of_nat (S n) = duration s ->
  exists s',
    times (S n) (_tick quiet) s = mkOut s' [finished] (inr tt)
    /\ terminal s' = true /\ elapsed s' = duration s
    /\ duration s' = duration s /\ paused s' = false /\ window s' = Closed.
Proof.
  revert s. induction n as [|n IH]; intros s Hp He.
  - destruct (tick_last s Hp ltac:(lia)) as (s1 & H1 & Ht & He1 & Hd & Hp1 & Hw).
    exists s1. cbn [times].
    erewrite bind_seq; [|exact H1|reflexivity].
    repeat split; auto; lia.
  - destruct (tick_below s Hp ltac:(lia)) as (s1 & H1 & He1 & Hd & Hp1 & _).
    destruct (IH s1 Hp1 ltac:(lia)) as (s2 & H2 & Ht & He2 & Hd2 & Hp2 & Hw).
    exists s2. change (times (S (S n)) (_tick quiet))
      with (bind (_tick quiet) (fun _ => times (S n) (_tick quiet))).
    rewrite (bind_seq _ _ _ _ _ _ _ _ _ H1 H2).
    repeat split; auto; congruence.
Qed.

Lemma launched_ready (gif : bool) (w0 h0 d : Z) :
  paused (launched gif w0 h0 d) = false
  /\ elapsed (launched gif w0 h0 d) = 0
  /\ duration (launched gif w0 h0 d) = d
  /\ timer_active (launched gif w0 h0 d) = true
  /\ window (launched gif w0 h0 d) = Visible.
Proof. unfold launched. destruct gif; cbn; auto. Qed.

Lemma timeout_dispatch (w : World) (s' : Overlay) (o : list Signal) :
  timer_active (ow w) = true ->
  _tick quiet (ow w) = mkOut s' o (inr tt) ->
  dispatch quiet Timeout w = Some {| ow := s'; log := log w ++ o |}.
Proof. intros Ht H. unfold dispatch. cbn [enabled handler]. now rewrite Ht, H. Qed.

Lemma timeouts_below (n : nat) :
  forall w,
    paused (ow w) = false -> timer_active (ow w) = true ->
    elapsed (ow w) + Z.of_nat n < duration (ow w) ->
    exists w',
      run_events quiet (repeat Timeout n) w = Some w'
      /\ log w' = log w
      /\ elapsed (ow w') = elapsed (ow w) + Z.of_nat n
      /\ duration (ow w') = duration (ow w)
      /\ paused (ow w') = false /\ timer_active (ow w') = true.
Proof.
  induction n as [|n IH]; intros w Hp Ht Hlt.
  - exists w. cbn. repeat split; auto; lia.
  - destruct (tick_below (ow w) Hp ltac:(lia))
      as (s1 & H1 & He & Hd & Hp1 & Ht1 & _).
    destruct (IH {| ow := s1; log := log w ++ [] |}) as (w2 & H2 & Hl & He2 & Hd2 & Hp2 & Ht2);
      cbn [ow log]; try congruence; try lia.
    exists w2. cbn [repeat run_events].
    rewrite (timeout_dispatch w s1 [] Ht H1), H2.
    cbn [ow log] in *. rewrite app_nil_r in Hl.
    repeat split; auto; try congruence; lia.
Qed.

Lemma timeouts_finish (n : nat) (w : World) :
  paused (ow w) = false -> timer_active (ow w) = true ->
  elapsed (ow w) + Z.of_nat (S n) = duration (ow w) ->
  exists w',
    run_events quiet (repeat Timeout (S n)) w = Some w'
    /\ terminal (ow w') = true
    /\ log w' = (log w ++ [finished])%list
    /\ elapsed (ow w') = duration (ow w)
    /\ duration (ow w') = duration (ow w).
Proof.
  intros Hp Ht He.
  destruct (timeouts_below n w Hp Ht ltac:(lia))
    as (w1 & H1 & Hl & He1 & Hd1 & Hp1 & Ht1).
  destruct (tick_last (ow w1) Hp1 ltac:(lia))
    as (s2 & H2 & Hterm & He2 & Hd2 & _).
  exists {| ow := s2; log := log w1 ++ [finished] |}.
  replace (S n) with (n + 1)%nat by lia. rewrite repeat_app.
  assert (Happ : forall evs1 evs2 u v,
             run_events quiet evs1 u = Some v ->
             run_events quiet (evs1 ++ evs2) u = run_events quiet evs2 v).
  { induction evs1 as [|ev evs1 IH]; intros evs2 u v Hu; cbn in *.
    - now injection Hu as <-.
    - destruct (dispatch quiet ev u); [eauto | discriminate]. }
  rewrite (Happ _ _ _ _ H1). cbn [repeat run_events].
  rewrite (timeout_dispatch w1 s2 [finished] Ht1 H2). cbn [ow log].
  repeat split; auto; try congruence; lia.
Qed.

(** Nothing is delivered to an overlay that is over. *)
Lemma terminal_no_event (w : World) (ev : Event) :
  terminal (ow w) = true -> dispatch quiet ev w = None.
Proof.
  unfold terminal, dispatch, enabled. intros H.
  destruct (timer_active (ow w)); [discriminate|].
  destruct (window (ow w)); cbn in H;
    rewrite ?andb_false_r in H; try discriminate.
  now destruct ev.
Qed.

(** C2: an overlay of duration [d > 0] that is never paused gets its
    [d] ticks from the timer; before the last of them nothing has been
    emitted, with the last one [elapsed] is [d], the overlay is over and
    [finished] has been emitted exactly once; after that the event loop
    has nothing more for it, so [elapsed] is not incremented again. *)
Theorem d_ticks_finish_once (gif : bool) (w0 h0 : Z) (d : nat) :
  (0 < d)%nat ->
  exists w,
    run_events quiet (repeat Timeout d) (start_world gif w0 h0 (Z.of_nat d))
    = Some w
    /\ terminal (ow w) = true
    /\ log w = [finished]
    /\ elapsed (ow w) = Z.of_nat d
    /\ (forall j, (j < d)%nat ->
          exists wj,
            run_events quiet (repeat Timeout j)
              (start_world gif w0 h0 (Z.of_nat d)) = Some wj
            /\ log wj = [] /\ elapsed (ow wj) = Z.of_nat j)
    /\ (forall ev, dispatch quiet ev w = None)
    /\ (forall evs w', run_events quiet evs w = Some w' ->
          elapsed (ow w') = Z.of_nat d /\ log w' = [finished]).
Proof.
  intros Hd.
  destruct (launched_ready gif w0 h0 (Z.of_nat d)) as (Hp & He & Hdur & Ht & Hw).
  destruct d as [|n]; [lia|].
  destruct (timeouts_finish n (start_world gif w0 h0 (Z.of_nat (S n))))
    as (w & Hrun & Hterm & Hlog & Hel & Hdu);
    unfold start_world in *; cbn [ow log] in *; auto; try lia.
  exists w. rewrite Hdur in Hel.
  split; [exact Hrun|]. split; [exact Hterm|]. split; [exact Hlog|].
  split; [exact Hel|]. split; [|split].
  - intros j Hj.
    destruct (timeouts_below j {| ow := launched gif w0 h0 (Z.of_nat (S n));
                                  log := [] |})
      as (wj & Hj1 & Hj2 & Hj3 & _); cbn [ow log]; auto; try lia.
    exists wj. cbn [ow log] in *. repeat split; auto; lia.
  - intros ev. now apply terminal_no_event.
  - intros [|ev evs] w' H; cbn in H.
    + injection H as <-. auto.
    + now rewrite (terminal_no_event w ev Hterm) in H.
Qed.

(** ** Pause and resume *)




(** Pause and Resume on an overlay that is over start its timer and
    its player again: only the closed window keeps the two buttons from
    being pressed then. *)
Lemma resume_after_finish_restarts :
  let r := pause_scenario 1 0 0 (launched false 2 2 1) in
  emitted r = [finished]
  /\ timer_active (state r) = true /\ player (state r) = PPlaying
  /\ terminal (state r) = false.
Proof. cbn. auto. Qed.


(** The slot does not look at whether the overlay is over: called by
    hand once more than the duration it counts on and emits again.  The
    timer, stopped by [_finish], never makes that call
    ([terminal_no_event]). *)
Lemma tick_on_finished_overlay :
  let r := ticks 4 (launched false 2 2 3) in
  elapsed (state r) = 4 /\ emitted r = [finished; finished].
Proof. cbn. auto. Qed.

(** ** The statements at concrete inputs *)

Lemma elapsed_invariant_witness :
  exists w,
    0 < 3
    /\ run_events quiet [Timeout; ClickPause; ClickPause; Timeout; Timeout]
         (start_world true 0 0 3) = Some w
    /\ (duration (ow w) = 3
        /\ 0 <= elapsed (ow w) <= duration (ow w)
        /\ (elapsed (ow w) = duration (ow w) ->
            terminal (ow w) = true /\ log w = [finished])
        /\ (List.length (log w) <= 1)%nat).
Proof.
  destruct (run_events quiet [Timeout; ClickPause; ClickPause; Timeout; Timeout]
              (start_world true 0 0 3)) as [w|] eqn:Hrun.
  - exists w. split; [lia|]. split; [reflexivity|].
    exact (elapsed_invariant true 0 0 3 _ w ltac:(lia) Hrun).
  - vm_compute in Hrun. discriminate Hrun.
Defined.

Lemma d_ticks_finish_once_witness :
  (0 < 3)%nat
  /\ exists w,
       run_events quiet (repeat Timeout 3) (start_world true 0 0 (Z.of_nat 3))
       = Some w
       /\ terminal (ow w) = true /\ log w = [finished] /\ elapsed (ow w) = 3.
Proof.
  split; [lia|].
  destruct (d_ticks_finish_once true 0 0 3 ltac:(lia))
    as (w & Hrun & Hterm & Hlog & Hel & _).
  exists w. repeat split; assumption.
Defined.


Lemma cancel_finishes_witness :
  0 <= elapsed (launched true 0 0 5) < duration (launched true 0 0 5)
  /\ emitted (_cancel quiet (launched true 0 0 5)) = [finished]
  /\ terminal (state (_cancel quiet (launched true 0 0 5))) = true.
Proof.
  assert (H : 0 <= elapsed (launched true 0 0 5)
              < duration (launched true 0 0 5)) by (cbn; lia).
  split; [exact H|].
  destruct (cancel_finishes (launched true 0 0 5) H)
    as (_ & Hem & Hterm & _).
  split; assumption.
Defined.

Lemma initial_size_static_witness :
  let env := {| load_asset := fun _ => Some (641, 480);
                extract_info := fun u => Some u;
                dll_directory := true |} in
  let o := _layout (constructed false 641 480 5) in
  is_gif_path IMAGE_PATH = false
  /\ 0 < 641 /\ 0 < 480
  /\ load_asset env IMAGE_PATH = Some (641, 480)
  /\ OverlayWindow_init env IMAGE_PATH 5 "https://example.org/v" = inr o
  /\ asset_w (geom o) = 641 / 2 /\ asset_h (geom o) = 480 / 2
  /\ shown_w (geom o) <= 641 / 2 /\ shown_h (geom o) <= 480 / 2.
Proof.
  cbn zeta.
  split; [reflexivity|]. split; [lia|]. split; [lia|].
  split; [reflexivity|]. split; [reflexivity|].
  destruct (initial_size_static
              {| load_asset := fun _ => Some (641, 480);
                 extract_info := fun u => Some u;
                 dll_directory := true |}
              IMAGE_PATH "https://example.org/v" 5 641 480
              (_layout (constructed false 641 480 5))
              eq_refl ltac:(lia) ltac:(lia) eq_refl eq_refl)
    as (_ & (Hw & Hh) & _ & (Sw & Sh) & _).
  repeat split; assumption.
Defined.

(** * Further properties *)

(** ** What the widgets show *)

Lemma ui_inv_start (gif : bool) (w0 h0 d : Z) :
  0 < d -> ui_inv (start_world gif w0 h0 d).
Proof.
  intros Hd. unfold ui_inv, start_world, launched.
  destruct gif; cbn -[Z.max]; rewrite Z.max_r by lia;
    repeat split; auto; intros; discriminate.
Qed.

Lemma dispatch_ui_inv (d : Z) (ev : Event) (w w' : World) :
  inv d w -> ui_inv w -> dispatch quiet ev w = Some w' -> ui_inv w'.
Proof.
  destruct w as [[gif mv g pm pv pt p du e ta pl win] l].
  unfold inv, ui_inv, dispatch, enabled.
  cbn [ow log window duration elapsed timer_active paused progress_value
       progress_max pause_text movie is_gif player].
  intros (Hd & He & Hw) (Hpv & Hpm & Hpt & Hmv & Hvis) H.
  destruct win; [contradiction| |].
  - destruct Hw as (Hlt & -> & Hp).
    destruct (Hvis eq_refl) as (Hta & Hrun). clear Hvis.
    subst pv pm du.
    destruct ev as [| | |rw0 rh0|]; cbn [handler] in H.
    + destruct ta; [|discriminate]. rewrite (Hp eq_refl) in *.
      rewrite (Hrun eq_refl) in *.
      run_methods.
      destruct (((d <? e + 1) || (e + 1 <? 0)) && negb (d =? 0)) eqn:Hc.
      { apply andb_true_iff in Hc. destruct Hc as [Hc _].
        apply orb_true_iff in Hc. destruct Hc as [Hc|Hc];
          apply Z.ltb_lt in Hc; lia. }
      cbn in H. destruct (d <=? e + 1); cbn in H;
        try (destruct gif; [destruct mv|]; cbn in H);
        injection H as <-; cbn; repeat split; auto; try discriminate;
        try (intros; discriminate); try (intros; tauto);
        try (destruct Hmv as [A B]; intros; auto; discriminate).
    + run_methods. destruct p; cbn in H;
        (destruct gif; [destruct mv as [m|]|]; cbn in H; injection H as <-; cbn;
         repeat split; auto; try discriminate; try (intros; discriminate);
         try (destruct Hmv as [A B]; intros; auto; try discriminate;
              exfalso; specialize (A eq_refl); discriminate)).
    + run_methods.
      destruct gif; [destruct mv|]; cbn in H; injection H as <-; cbn;
        repeat split; auto; try discriminate; try (intros; discriminate);
        try (destruct Hmv as [A B]; intros; auto; discriminate).
    + run_methods. injection H as <-. cbn. repeat split; auto;
        try (destruct Hmv as [A B]; intros; auto; discriminate).
    + run_methods. destruct gif; [destruct mv as [m|]|]; cbn in H;
        injection H as <-; cbn; repeat split; auto;
        try discriminate; try (intros; discriminate);
        try (destruct Hmv as [A B]; intros; auto; try discriminate;
             exfalso; specialize (A eq_refl); discriminate).
  - destruct Hw as (Ht & ->). unfold terminal in Ht. cbn in Ht.
    destruct ta; [discriminate|]. destruct ev; discriminate.
Qed.

Lemma run_events_shown (d : Z) (evs : list Event) :
  forall w w',
    inv d w -> ui_inv w -> run_events quiet evs w = Some w' ->
    inv d w' /\ ui_inv w'.
Proof.
  induction evs as [|ev evs IH]; intros w w' Hi Hu H; cbn in H.
  - injection H as <-. auto.
  - destruct (dispatch quiet ev w) as [w1|] eqn:Hs; [|discriminate].
    eapply IH; [| |exact H].
    + eapply dispatch_inv; eauto.
    + eapply dispatch_ui_inv; eauto.
Qed.

Lemma reachable_shown (gif : bool) (w0 h0 d : Z) (evs : list Event) (w : World) :
  0 < d ->
  run_events quiet evs (start_world gif w0 h0 d) = Some w ->
  inv d w /\ ui_inv w.
Proof.
  intros Hd H. eapply run_events_shown; [| |exact H].
  - now apply inv_start.
  - now apply ui_inv_start.
Qed.

(** X1: whatever the event loop has delivered to a shown overlay of
    positive duration, the widgets agree with the fields: the progress
    bar shows [elapsed] out of [duration], the button reads "Resume"
    exactly when the pause flag is set, a movie exists exactly for a
    GIF, and while the window is on screen the timer runs exactly when
    the flag is unset, in which case the audio is playing. *)
Theorem widgets_agree (gif : bool) (w0 h0 d : Z) (evs : list Event) (w : World) :
  0 < d ->
  run_events quiet evs (start_world gif w0 h0 d) = Some w ->
  progress_value (ow w) = elapsed (ow w)
  /\ progress_max (ow w) = d
  /\ pause_text (ow w) = (if paused (ow w) then "Resume" else "Pause")
  /\ (movie (ow w) = None <-> is_gif (ow w) = false)
  /\ (window (ow w) = Visible ->
      timer_active (ow w) = negb (paused (ow w))
      /\ (paused (ow w) = false -> player (ow w) = PPlaying)).
Proof.
  intros Hd H.
  destruct (reachable_shown gif w0 h0 d evs w Hd H)
    as ((Hdur & _) & (A & B & C & D & E)).
  rewrite <- Hdur. repeat split; try tauto; apply E; auto.
Qed.

Lemma widgets_agree_witness :
  exists w,
    0 < 3
    /\ run_events quiet [Timeout; ClickPause; Exposed; ClickPause; Timeout]
         (start_world false 640 480 3) = Some w
    /\ progress_value (ow w) = elapsed (ow w)
    /\ pause_text (ow w) = (if paused (ow w) then "Resume" else "Pause").
Proof.
  destruct (run_events quiet [Timeout; ClickPause; Exposed; ClickPause; Timeout]
              (start_world false 640 480 3)) as [w|] eqn:Hrun.
  - exists w. split; [lia|]. split; [reflexivity|].
    destruct (widgets_agree false 640 480 3 _ w ltac:(lia) Hrun)
      as (A & _ & C & _).
    split; assumption.
  - vm_compute in Hrun. discriminate Hrun.
Defined.

(** ** Pause and the timer *)

(** X2: Pause followed by Resume.  On a running overlay (on screen,
    pause flag unset) that the event loop has reached, the two clicks
    are both delivered and leave every field and the log as they were,
    but for the movie of a GIF, which Resume leaves running whatever
    state it was in before; for an image that is no GIF the two clicks
    are an exact round trip. *)
Theorem pause_resume_round_trip (gif : bool) (w0 h0 d : Z) (evs : list Event)
  (w : World) :
  0 < d ->
  run_events quiet evs (start_world gif w0 h0 d) = Some w ->
  window (ow w) = Visible -> paused (ow w) = false ->
  run_events quiet [ClickPause; ClickPause] w
  = Some {| ow := on_movie (fun _ => Running) (ow w); log := log w |}
  /\ (is_gif (ow w) = false ->
      run_events quiet [ClickPause; ClickPause] w = Some w).
Proof.
  intros Hd H Hv Hp.
  destruct (reachable_shown gif w0 h0 d evs w Hd H)
    as ((_ & _ & Hw) & (_ & _ & Ht & Hm & Hvis)).
  destruct w as [[g mv ge pm pv pt p du e ta pl win] l].
  cbn [ow log window paused pause_text movie is_gif timer_active player] in *.
  subst win p. destruct Hw as (_ & -> & _).
  destruct (Hvis eq_refl) as (-> & Hrun).
  rewrite (Hrun eq_refl). subst pt.
  unfold run_events, dispatch, enabled, handler. cbn [ow log window].
  run_methods.
  destruct g; cbn.
  - split; [|discriminate]. destruct mv as [m|]; reflexivity.
  - destruct Hm as [_ Hm]. rewrite (Hm eq_refl). split; reflexivity.
Qed.

Lemma pause_resume_round_trip_witness :
  exists w,
    0 < 3
    /\ run_events quiet [Timeout; Resized 50 160] (start_world false 640 480 3)
       = Some w
    /\ window (ow w) = Visible /\ paused (ow w) = false
    /\ run_events quiet [ClickPause; ClickPause] w = Some w.
Proof.
  destruct (run_events quiet [Timeout; Resized 50 160]
              (start_world false 640 480 3)) as [w|] eqn:Hrun.
  - assert (Hv : window (ow w) = Visible)
      by (vm_compute in Hrun; injection Hrun as <-; reflexivity).
    assert (Hp : paused (ow w) = false)
      by (vm_compute in Hrun; injection Hrun as <-; reflexivity).
    assert (Hg : is_gif (ow w) = false)
      by (vm_compute in Hrun; injection Hrun as <-; reflexivity).
    exists w. split; [lia|]. split; [reflexivity|].
    split; [exact Hv|]. split; [exact Hp|].
    exact (proj2 (pause_resume_round_trip false 640 480 3 _ w ltac:(lia)
                    Hrun Hv Hp) Hg).
  - vm_compute in Hrun. discriminate Hrun.
Defined.

Lemma paused_step (d : Z) (ev : Event) (w w' : World) :
  inv d w -> ui_inv w ->
  paused (ow w) = true -> window (ow w) = Visible ->
  is_click ev = false ->
  dispatch quiet ev w = Some w' ->
  elapsed (ow w') = elapsed (ow w) /\ paused (ow w') = true
  /\ window (ow w') = Visible /\ log w' = log w
  /\ timer_active (ow w') = false.
Proof.
  destruct w as [[gif mv g pm pv pt p du e ta pl win] l].
  unfold ui_inv, dispatch, enabled.
  cbn [ow log window paused timer_active].
  intros _ (_ & _ & _ & _ & Hvis) -> -> Hc H.
  destruct (Hvis eq_refl) as (-> & _). cbn [negb] in H.
  destruct ev as [| | |rw0 rh0|]; try discriminate; cbn [handler] in H.
  - run_methods. injection H as <-. cbn. rewrite app_nil_r. auto.
  - run_methods. destruct gif; cbn in H; injection H as <-; cbn;
      rewrite ?app_nil_r; auto.
Qed.

(** X3: a paused overlay is frozen.  On an overlay on screen with the
    pause flag set, no timeout is delivered, and whatever else arrives
    short of a click on one of the two buttons (resizes, show events)
    leaves [elapsed], the flag, the stopped timer and the log as they
    are. *)
Theorem paused_is_frozen (gif : bool) (w0 h0 d : Z) (evs : list Event)
  (w : World) :
  0 < d ->
  run_events quiet evs (start_world gif w0 h0 d) = Some w ->
  window (ow w) = Visible -> paused (ow w) = true ->
  dispatch quiet Timeout w = None
  /\ (forall more w',
        forallb (fun ev => negb (is_click ev)) more = true ->
        run_events quiet more w = Some w' ->
        elapsed (ow w') = elapsed (ow w) /\ paused (ow w') = true
        /\ timer_active (ow w') = false /\ log w' = log w).
Proof.
  intros Hd H Hv Hp.
  destruct (reachable_shown gif w0 h0 d evs w Hd H) as (Hi & Hu).
  assert (Hta : timer_active (ow w) = false).
  { destruct Hu as (_ & _ & _ & _ & E). destruct (E Hv) as (E1 & _).
    now rewrite Hp in E1. }
  split.
  - unfold dispatch. cbn [enabled]. now rewrite Hta.
  - clear H. intros more. revert w Hi Hu Hv Hp Hta.
    induction more as [|ev more IH]; intros w Hi Hu Hv Hp Hta w' Hall Hrun;
      cbn in Hrun.
    + injection Hrun as <-. auto.
    + cbn in Hall. apply andb_true_iff in Hall. destruct Hall as [Hev Hall].
      apply negb_true_iff in Hev.
      destruct (dispatch quiet ev w) as [w1|] eqn:Hs; [|discriminate].
      destruct (paused_step d ev w w1 Hi Hu Hp Hv Hev Hs)
        as (E1 & P1 & V1 & L1 & T1).
      destruct (IH w1 (dispatch_inv _ _ _ _ Hi Hs)
                  (dispatch_ui_inv _ _ _ _ Hi Hu Hs) V1 P1 T1 w' Hall Hrun)
        as (E2 & P2 & T2 & L2).
      repeat split; congruence.
Qed.

Lemma paused_is_frozen_witness :
  exists w,
    0 < 3
    /\ run_events quiet [Timeout; ClickPause] (start_world false 640 480 3)
       = Some w
    /\ window (ow w) = Visible /\ paused (ow w) = true
    /\ dispatch quiet Timeout w = None.
Proof.
  destruct (run_events quiet [Timeout; ClickPause]
              (start_world false 640 480 3)) as [w|] eqn:Hrun.
  - assert (Hv : window (ow w) = Visible)
      by (vm_compute in Hrun; injection Hrun as <-; reflexivity).
    assert (Hp : paused (ow w) = true)
      by (vm_compute in Hrun; injection Hrun as <-; reflexivity).
    exists w. split; [lia|]. split; [reflexivity|].
    split; [exact Hv|]. split; [exact Hp|].
    exact (proj1 (paused_is_frozen false 640 480 3 _ w ltac:(lia) Hrun Hv Hp)).
  - vm_compute in Hrun. discriminate Hrun.
Defined.

(** X4: [showEvent] does not look at the pause flag.  A show event
    that reaches a paused overlay starts the audio again while the
    timer stays stopped, the flag stays set and the button still reads
    "Resume": sound plays although the countdown is frozen. *)
Theorem show_while_paused (gif : bool) (w0 h0 d : Z) (evs : list Event)
  (w : World) :
  0 < d ->
  run_events quiet evs (start_world gif w0 h0 d) = Some w ->
  window (ow w) = Visible -> paused (ow w) = true ->
  exists w',
    dispatch quiet Exposed w = Some w'
    /\ player (ow w') = PPlaying
    /\ timer_active (ow w') = false
    /\ paused (ow w') = true
    /\ pause_text (ow w') = "Resume"
    /\ elapsed (ow w') = elapsed (ow w).
Proof.
  intros Hd H Hv Hp.
  destruct (reachable_shown gif w0 h0 d evs w Hd H)
    as (_ & (_ & _ & Ht & Hm & Hvis)).
  destruct w as [[g mv ge pm pv pt p du e ta pl win] l].
  cbn [ow log window paused pause_text movie is_gif timer_active player] in *.
  subst win p pt. destruct (Hvis eq_refl) as (-> & _).
  unfold dispatch, enabled, handler. cbn [ow log window].
  run_methods. destruct g; cbn;
    (eexists; split; [reflexivity|]; cbn; repeat split; auto).
Qed.

Lemma show_while_paused_witness :
  exists w,
    0 < 3
    /\ run_events quiet [Timeout; ClickPause] (start_world false 640 480 3)
       = Some w
    /\ window (ow w) = Visible /\ paused (ow w) = true
    /\ exists w', dispatch quiet Exposed w = Some w'
                  /\ player (ow w') = PPlaying
                  /\ timer_active (ow w') = false.
Proof.
  destruct (run_events quiet [Timeout; ClickPause]
              (start_world false 640 480 3)) as [w|] eqn:Hrun.
  - assert (Hv : window (ow w) = Visible)
      by (vm_compute in Hrun; injection Hrun as <-; reflexivity).
    assert (Hp : paused (ow w) = true)
      by (vm_compute in Hrun; injection Hrun as <-; reflexivity).
    exists w. split; [lia|]. split; [reflexivity|].
    split; [exact Hv|]. split; [exact Hp|].
    destruct (show_while_paused false 640 480 3 _ w ltac:(lia) Hrun Hv Hp)
      as (w' & A & B & C & _).
    exists w'. repeat split; assumption.
  - vm_compute in Hrun. discriminate Hrun.
Defined.

(** ** Counting *)

Lemma dispatch_counts (d : Z) (ev : Event) (w w' : World) :
  inv d w -> dispatch quiet ev w = Some w' ->
  elapsed (ow w') = elapsed (ow w) + Z.of_nat (count_timeouts [ev]).
Proof.
  intros (_ & _ & Hw) H. unfold dispatch in H.
  destruct (enabled ev (ow w)) eqn:Hen; [|discriminate].
  destruct (result (handler quiet ev (ow w))); [discriminate|].
  injection H as <-. cbn [ow].
  destruct ev as [| | |rw0 rh0|]; cbn [handler count_timeouts].
  - rewrite tick_elapsed. cbn in Hen.
    destruct (window (ow w)); [contradiction| |].
    + destruct Hw as (_ & _ & Hp). rewrite (Hp Hen). lia.
    + destruct Hw as (Ht & _). unfold terminal in Ht. rewrite Hen in Ht.
      discriminate.
  - rewrite toggle_pause_elapsed. cbn. lia.
  - rewrite cancel_elapsed. cbn. lia.
  - rewrite resizeEvent_elapsed. cbn. lia.
  - rewrite showEvent_elapsed. cbn. lia.
Qed.

(** X5: [elapsed] is the number of timeouts delivered: after any list
    of events the event loop could deliver to a shown overlay of
    positive duration, [elapsed] equals the number of timeouts in the
    list; clicks, resizes and show events count for nothing. *)
Theorem elapsed_counts_timeouts (gif : bool) (w0 h0 d : Z) (evs : list Event)
  (w : World) :
  0 < d ->
  run_events quiet evs (start_world gif w0 h0 d) = Some w ->
  elapsed (ow w) = Z.of_nat (count_timeouts evs).
Proof.
  intros Hd H.
  assert (G : forall evs u v,
             inv d u -> run_events quiet evs u = Some v ->
             elapsed (ow v) = elapsed (ow u) + Z.of_nat (count_timeouts evs)).
  { clear. induction evs as [|ev evs IH]; intros u v Hi Hr; cbn in Hr.
    - injection Hr as <-. cbn. lia.
    - destruct (dispatch quiet ev u) as [u1|] eqn:Hs; [|discriminate].
      rewrite (IH u1 v (dispatch_inv _ _ _ _ Hi Hs) Hr).
      rewrite (dispatch_counts d ev u u1 Hi Hs).
      destruct ev; cbn [count_timeouts]; lia. }
  rewrite (G evs _ w (inv_start gif w0 h0 d Hd) H).
  unfold start_world. cbn [ow].
  destruct (launched_ready gif w0 h0 d) as (_ & -> & _). lia.
Qed.

Lemma elapsed_counts_timeouts_witness :
  exists w,
    0 < 3
    /\ run_events quiet [Timeout; ClickPause; Exposed; ClickPause; Timeout]
         (start_world true 0 0 3) = Some w
    /\ elapsed (ow w) = 2.
Proof.
  destruct (run_events quiet [Timeout; ClickPause; Exposed; ClickPause; Timeout]
              (start_world true 0 0 3)) as [w|] eqn:Hrun.
  - exists w. split; [lia|]. split; [reflexivity|].
    exact (elapsed_counts_timeouts true 0 0 3 _ w ltac:(lia) Hrun).
  - vm_compute in Hrun. discriminate Hrun.
Defined.

(** X6: the window is closed exactly when [finished] has been emitted,
    and a closed overlay is over for good: it is terminal and the event
    loop has nothing more for it, whether it ended by the last tick or
    by Cancel.  It is on screen exactly when nothing has been emitted. *)
Theorem closed_iff_finished (gif : bool) (w0 h0 d : Z) (evs : list Event)
  (w : World) :
  0 < d ->
  run_events quiet evs (start_world gif w0 h0 d) = Some w ->
  (window (ow w) = Closed <-> log w = [finished])
  /\ (window (ow w) = Visible <-> log w = [])
  /\ (window (ow w) = Closed ->
      terminal (ow w) = true
      /\ (forall ev, dispatch quiet ev w = None)
      /\ (forall more w', run_events quiet more w = Some w' -> w' = w)).
Proof.
  intros Hd H.
  destruct (reachable_shown gif w0 h0 d evs w Hd H) as ((_ & _ & Hw) & _).
  destruct (window (ow w)) eqn:Hwin; [contradiction| |].
  - destruct Hw as (_ & -> & _).
    repeat split; intros; try discriminate; auto.
  - destruct Hw as (Ht & ->).
    repeat split; intros; try discriminate; auto.
    + now apply terminal_no_event.
    + destruct more as [|ev more]; cbn in *.
      * now injection H1 as <-.
      * now rewrite (terminal_no_event w ev Ht) in H1.
Qed.

Lemma closed_iff_finished_witness :
  exists w,
    0 < 3
    /\ run_events quiet [Timeout; ClickCancel] (start_world true 0 0 3)
       = Some w
    /\ (window (ow w) = Closed <-> log w = [finished]).
Proof.
  destruct (run_events quiet [Timeout; ClickCancel]
              (start_world true 0 0 3)) as [w|] eqn:Hrun.
  - exists w. split; [lia|]. split; [reflexivity|].
    exact (proj1 (closed_iff_finished true 0 0 3 _ w ltac:(lia) Hrun)).
  - vm_compute in Hrun. discriminate Hrun.
Defined.

(** ** Size *)






(** ** Failing library calls *)

(** X8: [_finish] is best effort.  Whatever the stop calls do, it
    returns, closes the window, emits [finished] exactly once and leaves
    [elapsed], [duration] and the pause flag alone.  A stop call that
    fails does not keep the others from being made: each resource whose
    stop call does not raise ends up stopped, whether or not the calls
    before it raised. *)
Theorem finish_best_effort (raises : Call -> Overlay -> bool) (s : Overlay) :
  let r := _finish raises s in
  result r = inr tt
  /\ emitted r = [finished]
  /\ window (state r) = Closed
  /\ elapsed (state r) = elapsed s
  /\ duration (state r) = duration s
  /\ paused (state r) = paused s
  /\ ((forall s', raises TimerStop s' = false) ->
      timer_active (state r) = false)
  /\ ((forall s', raises PlayerStop s' = false) ->
      player (state r) = PStopped)
  /\ ((forall s', raises MovieStop s' = false) -> is_gif s = true ->
      movie (state r) = option_map (fun _ => NotRunning) (movie s))
  /\ (is_gif s = false -> movie (state r) = movie s).
Proof.
  destruct s as [gif mv g pm pv pt p du e ta pl win]. cbn zeta.
  run_methods.
  destruct (raises TimerStop _) eqn:E1; cbn;
    (destruct (raises PlayerStop _) eqn:E2; cbn);
    (destruct gif; cbn; [destruct (raises MovieStop _) eqn:E3; cbn|]);
    repeat split; auto; intros; try discriminate;
    try (rewrite H in E1; discriminate);
    try (rewrite H in E2; discriminate);
    try (rewrite H in E3; discriminate).
Qed.

(** X9: the stop calls [_cancel] makes itself are not guarded.  Either
    all three succeed and [_cancel] returns with the window closed and
    [finished] emitted once, or the first one that raises ends
    [_cancel]: the exception is that of a stop call, the window stays
    as it was and nothing is emitted.  In particular a failing
    [timer.stop()] leaves the overlay untouched. *)
Theorem cancel_propagates (raises : Call -> Overlay -> bool) (s : Overlay) :
  let r := _cancel raises s in
  ((result r = inr tt /\ emitted r = [finished] /\ window (state r) = Closed)
   \/ (exists c,
          result r = inl (LibError c)
          /\ (c = TimerStop \/ c = PlayerStop \/ c = MovieStop)
          /\ emitted r = [] /\ window (state r) = window s))
  /\ (raises TimerStop s = true ->
      r = mkOut s [] (inl (LibError TimerStop))).
Proof.
  destruct s as [gif mv g pm pv pt p du e ta pl win]. cbn zeta.
  run_methods.
  destruct (raises TimerStop _) eqn:E1; cbn.
  { split; [right; exists TimerStop; auto 6 | reflexivity]. }
  split; [|discriminate].
  destruct (raises PlayerStop _) eqn:E2; cbn.
  { right; exists PlayerStop; auto 6. }
  destruct gif; cbn.
  - destruct (raises MovieStop _) eqn:E3; cbn.
    { right; exists MovieStop; auto 6. }
    left.
    repeat (match goal with
            | |- context [raises ?c ?x] => destruct (raises c x)
            end; cbn); auto.
  - left.
    repeat (match goal with
            | |- context [raises ?c ?x] => destruct (raises c x)
            end; cbn); auto.
Qed.

Lemma cancel_propagates_witness :
  let raises := fun (c : Call) (_ : Overlay) =>
                  match c with TimerStop => true | _ => false end in
  raises TimerStop (launched true 0 0 5) = true
  /\ _cancel raises (launched true 0 0 5)
     = mkOut (launched true 0 0 5) [] (inl (LibError TimerStop)).
Proof.
  cbn zeta. split; [reflexivity|].
  exact (proj2 (cancel_propagates
                  (fun (c : Call) (_ : Overlay) =>
                     match c with TimerStop => true | _ => false end)
                  (launched true 0 0 5)) eq_refl).
Defined.

(** ** Durations that are not positive *)

(** X10: [_tick] compares with [>=].  An overlay built with any
    duration [d], also one that is not positive, and never paused
    finishes with tick number [max 1 d]: nothing is emitted before, and
    with that tick [finished] is emitted once, the overlay is over and
    [elapsed] is [max 1 d]. *)
Theorem ticks_until_finish (gif : bool) (w0 h0 d : Z) :
  let n := Z.to_nat (Z.max 1 d) in
  let s0 := launched gif w0 h0 d in
  result (ticks n s0) = inr tt
  /\ emitted (ticks n s0) = [finished]
  /\ terminal (state (ticks n s0)) = true
  /\ elapsed (state (ticks n s0)) = Z.max 1 d
  /\ (forall j, (j < n)%nat ->
        emitted (ticks j s0) = []
        /\ elapsed (state (ticks j s0)) = Z.of_nat j).
Proof.
  cbn zeta.
  destruct (launched_ready gif w0 h0 d) as (Hp & He & Hd & _).
  set (s0 := launched gif w0 h0 d) in *.
  destruct (Z.le_gt_cases d 1) as [Hle|Hgt].
  - rewrite Z.max_l by lia. change (Z.to_nat 1) with 1%nat.
    destruct (tick_last s0 Hp ltac:(lia)) as (s1 & H1 & Ht & He1 & _).
    assert (R : ticks 1 s0 = mkOut s1 ([finished] ++ []) (inr tt)).
    { unfold ticks. cbn [times]. eapply bind_seq; [exact H1 | reflexivity]. }
    rewrite R. cbn [state emitted result app].
    repeat split; auto; try lia.
    + destruct j; [reflexivity | lia].
    + destruct j; [cbn; lia | lia].
  - rewrite Z.max_r by lia.
    destruct (Z.to_nat d) as [|m] eqn:Hn; [lia|].
    destruct (times_finish m s0 Hp ltac:(lia)) as (s1 & H1 & Ht & He1 & _).
    unfold ticks. rewrite H1. cbn [state emitted result].
    repeat split; auto; try lia;
      destruct (times_below j s0 Hp ltac:(lia)) as (sj & Hj & Hej & _);
      rewrite Hj; cbn [state emitted]; [reflexivity | lia].
Qed.

(** ** The controls *)

(** X11: how [_layout] arranges the controls in a strip of 100 pixels.
    The label takes the asset box.  Below it come, with 10 pixels in
    between, the progress bar (10 pixels from either side of the
    window) and the row of the two buttons, which ends on the bottom
    edge of the window.  The buttons have the same height, lie 20
    pixels apart without overlapping, and as a pair are centred up to
    one pixel.  The grip sits in the bottom right corner. *)
Theorem controls_arranged (s : Overlay) :
  ctrl_h (geom s) = 100 ->
  let c := _layout_controls s in
  let w := win_w (geom s) in
  let h := win_h (geom s) in
  (rw (label_rect c) = asset_w (geom (_layout s))
   /\ rh (label_rect c) = asset_h (geom (_layout s)))
  /\ (ry (progress_rect c) = rh (label_rect c) + 10
      /\ ry (progress_rect c) + rh (progress_rect c) + 10 = ry (pause_rect c)
      /\ ry (pause_rect c) + rh (pause_rect c) = h)
  /\ (rx (progress_rect c) = 10
      /\ rx (progress_rect c) + rw (progress_rect c) = w - 10)
  /\ (ry (cancel_rect c) = ry (pause_rect c)
      /\ rh (cancel_rect c) = rh (pause_rect c)
      /\ rx (cancel_rect c) = rx (pause_rect c) + rw (pause_rect c) + 20
      /\ overlaps (pause_rect c) (cancel_rect c) = false)
  /\ 0 <= (w - (rx (cancel_rect c) + rw (cancel_rect c))) - rx (pause_rect c) <= 1
  /\ (rx (grip_rect c) + rw (grip_rect c) = w
      /\ ry (grip_rect c) + rh (grip_rect c) = h).
Proof.
  intros Hc. cbn zeta. unfold _layout_controls, _layout, overlaps, BTN_W, BTN_H, GRIP.
  cbn [label_rect progress_rect pause_rect cancel_rect grip_rect rx ry rw rh
       geom set_geom asset_w asset_h].
  rewrite Hc.
  assert (Hov : forall x y : Z,
             ((x <? x + 140 + 20 + 140) && (x + 140 + 20 <? x + 140)
              && (y <? y + 40) && (y <? y + 40)) = false).
  { intros x y. replace (x + 140 + 20 <? x + 140) with false
      by (symmetry; apply Z.ltb_ge; lia).
    now rewrite andb_false_r. }
  rewrite Hov.
  pose proof (Z.div_mod (win_w (geom s) - (140 + 20 + 140)) 2 ltac:(lia)).
  pose proof (Z.mod_pos_bound (win_w (geom s) - (140 + 20 + 140)) 2 ltac:(lia)).
  repeat split; try reflexivity; lia.
Qed.

Lemma controls_arranged_witness :
  let s := launched false 1280 720 5 in
  ctrl_h (geom s) = 100
  /\ rx (pause_rect (_layout_controls s)) = 170
  /\ rx (cancel_rect (_layout_controls s)) = 330.
Proof.
  cbn zeta.
  assert (Hc : ctrl_h (geom (launched false 1280 720 5)) = 100) by reflexivity.
  split; [exact Hc|].
  destruct (controls_arranged (launched false 1280 720 5) Hc)
    as (_ & _ & _ & (_ & _ & Hx & _) & _).
  split; [reflexivity|]. rewrite Hx. reflexivity.
Defined.

Lemma overlaps_true (a b : Rect) :
  overlaps a b = true
  <-> rx a < rx b + rw b /\ rx b < rx a + rw a
      /\ ry a < ry b + rh b /\ ry b < ry a + rh a.
Proof.
  unfold overlaps. rewrite !andb_true_iff, !Z.ltb_lt. tauto.
Qed.

(** X12: the two buttons lie within the width of the window exactly
    when the window is at least 300 pixels wide; in a narrower window
    the Pause button starts left of the window's left edge. *)
Theorem buttons_fit (s : Overlay) :
  let c := _layout_controls s in
  let w := win_w (geom s) in
  (0 <= rx (pause_rect c) /\ rx (cancel_rect c) + rw (cancel_rect c) <= w
   <-> 300 <= w)
  /\ (rx (pause_rect c) < 0 <-> w < 300).
Proof.
  cbn zeta. unfold _layout_controls, BTN_W.
  cbn [pause_rect cancel_rect rx rw].
  pose proof (Z.div_mod (win_w (geom s) - (140 + 20 + 140)) 2 ltac:(lia)).
  pose proof (Z.mod_pos_bound (win_w (geom s) - (140 + 20 + 140)) 2 ltac:(lia)).
  repeat split; intros; lia.
Qed.

(** X13: the resize grip, 30 pixels square in the bottom right corner,
    overlaps the Cancel button exactly when the window is between 21
    and 358 pixels wide; from 359 pixels on the two are apart. *)
Theorem grip_over_cancel (s : Overlay) :
  ctrl_h (geom s) = 100 ->
  let c := _layout_controls s in
  overlaps (grip_rect c) (cancel_rect c) = true
  <-> 21 <= win_w (geom s) <= 358.
Proof.
  intros Hc. cbn zeta. rewrite overlaps_true.
  unfold _layout_controls, BTN_W, BTN_H, GRIP.
  cbn [grip_rect cancel_rect rx ry rw rh]. rewrite Hc.
  pose proof (Z.div_mod (win_w (geom s) - (140 + 20 + 140)) 2 ltac:(lia)).
  pose proof (Z.mod_pos_bound (win_w (geom s) - (140 + 20 + 140)) 2 ltac:(lia)).
  repeat split; intros; lia.
Qed.

Lemma grip_over_cancel_witness :
  let s := launched false 641 480 5 in
  ctrl_h (geom s) = 100
  /\ overlaps (grip_rect (_layout_controls s)) (cancel_rect (_layout_controls s))
     = true.
Proof.
  cbn zeta.
  assert (Hc : ctrl_h (geom (launched false 641 480 5)) = 100) by reflexivity.
  split; [exact Hc|].
  apply (proj2 (grip_over_cancel (launched false 641 480 5) Hc)).
  cbn. lia.
Defined.

(** ** Position and dragging *)

(** X14: the constructor centres the asset, not the window.  On a
    screen whose top left corner is the origin (the code uses only the
    width and the height of the screen) the window is centred
    horizontally up to one pixel; vertically it is the asset that is
    centred up to one pixel, so that the window, which is 100 pixels
    higher, has a bottom margin 100 pixels (or 99) smaller than its top
    margin.  No drag offset is set. *)
Theorem asset_centred (gif : bool) (w0 h0 d scr_w scr_h : Z) :
  let o := _layout (constructed gif w0 h0 d) in
  let x := fst (pos (centred scr_w scr_h o)) in
  let y := snd (pos (centred scr_w scr_h o)) in
  0 <= (scr_w - (x + win_w (geom o))) - x <= 1
  /\ 0 <= (scr_h - (y + asset_h (geom o))) - y <= 1
  /\ -100 <= (scr_h - (y + win_h (geom o))) - y <= -99
  /\ _drag (centred scr_w scr_h o) = None.
Proof.
  cbn zeta. unfold centred, _layout, constructed.
  cbn [pos _drag fst snd geom set_geom init_w init_h win_w win_h asset_h ctrl_h].
  rewrite !half_of_int.
  pose proof (Z.div_mod (scr_w - Z.quot w0 2) 2 ltac:(lia)).
  pose proof (Z.mod_pos_bound (scr_w - Z.quot w0 2) 2 ltac:(lia)).
  pose proof (Z.div_mod (scr_h - Z.quot h0 2) 2 ltac:(lia)).
  pose proof (Z.mod_pos_bound (scr_h - Z.quot h0 2) 2 ltac:(lia)).
  repeat split; try reflexivity; lia.
Qed.

Lemma run_mouse_app (a b : list MouseEvent) :
  forall p p',
    run_mouse a p = inr p' -> run_mouse (a ++ b) p = run_mouse b p'.
Proof.
  induction a as [|[lb g|lb g] a IH]; intros p p' H; cbn in *.
  - now injection H as <-.
  - now apply IH.
  - destruct (mouseMoveEvent lb g p); [discriminate | now apply IH].
Qed.

Lemma moves_keep_drag (ms : list MouseEvent) :
  forall p d,
    _drag p = Some d -> forallb is_move ms = true ->
    exists p', run_mouse ms p = inr p' /\ _drag p' = Some d.
Proof.
  induction ms as [|[lb g|lb g] ms IH]; intros p d Hd Hall; cbn in *.
  - now exists p.
  - discriminate.
  - unfold mouseMoveEvent. destruct lb; [rewrite Hd|]; now apply IH.
Qed.

(** X15: dragging moves the window with the cursor.  After a press of
    the left button at [g0], whatever moves came in between, a move of
    the cursor to [g] with the button held puts the window where it was
    at the press, shifted by [g - g0]; none of this raises. *)
Theorem drag_follows_cursor (p : Placement) (g0 g : Point)
  (ms : list MouseEvent) :
  forallb is_move ms = true ->
  exists p',
    run_mouse (Press true g0 :: ms ++ [Move true g]) p = inr p'
    /\ pos p' = (fst (pos p) + (fst g - fst g0), snd (pos p) + (snd g - snd g0)).
Proof.
  intros Hall. cbn [run_mouse].
  destruct (moves_keep_drag ms (mousePressEvent true g0 p) (psub g0 (pos p))
              eq_refl Hall) as (q & Hq & Hd).
  rewrite (run_mouse_app ms [Move true g] _ q Hq).
  cbn [run_mouse]. unfold mouseMoveEvent. rewrite Hd.
  eexists. split; [reflexivity|].
  unfold psub. cbn [pos fst snd]. f_equal; lia.
Qed.

Lemma drag_follows_cursor_witness :
  forallb is_move [Move true (110, 205); Move false (0, 0)] = true
  /\ exists p',
       run_mouse (Press true (100, 200)
                    :: [Move true (110, 205); Move false (0, 0)]
                    ++ [Move true (130, 190)])
         {| pos := (40, 50); _drag := None |} = inr p'
       /\ pos p' = (40 + (130 - 100), 50 + (190 - 200)).
Proof.
  split; [reflexivity|].
  exact (drag_follows_cursor {| pos := (40, 50); _drag := None |}
           (100, 200) (130, 190) [Move true (110, 205); Move false (0, 0)]
           eq_refl).
Defined.

Lemma pressed_never_raises (evs : list MouseEvent) :
  forall q, _drag q <> None -> exists q', run_mouse evs q = inr q'.
Proof.
  induction evs as [|[lb g|lb g] evs IH]; intros q Hq; cbn.
  - now exists q.
  - apply IH. unfold mousePressEvent. destruct lb; [discriminate | exact Hq].
  - unfold mouseMoveEvent. destruct lb; [|now apply IH].
    destruct (_drag q) as [d|] eqn:E; [|contradiction].
    apply IH. cbn. discriminate.
Qed.

(** X16: [_drag] is not set by the constructor.  On a window on which
    the left button was never pressed, a move with the left button held
    raises AttributeError, whatever presses of other buttons and moves
    came before; once the left button has been pressed on the window,
    no mouse event raises. *)
Theorem move_before_press_raises (p : Placement) (g : Point)
  (evs : list MouseEvent) :
  _drag p = None ->
  forallb (fun ev => negb (is_left_press ev)) evs = true ->
  run_mouse (evs ++ [Move true g]) p = inl AttributeError
  /\ (forall q g0 more,
        exists q', run_mouse (Press true g0 :: more) q = inr q').
Proof.
  intros Hd Hall. split.
  - revert p Hd Hall.
    induction evs as [|[lb g1|lb g1] evs IH]; intros p Hd Hall; cbn in Hall.
    + cbn. unfold mouseMoveEvent. now rewrite Hd.
    + destruct lb; [discriminate|]. cbn [app run_mouse mousePressEvent].
      now apply IH.
    + cbn [app run_mouse]. unfold mouseMoveEvent. destruct lb.
      * now rewrite Hd.
      * now apply IH.
  - intros q g0 more. cbn [run_mouse]. apply pressed_never_raises.
    discriminate.
Qed.

Lemma move_before_press_raises_witness :
  _drag (centred 1920 1080 (launched false 640 480 5)) = None
  /\ forallb (fun ev => negb (is_left_press ev))
       [Press false (5, 5); Move false (6, 6)] = true
  /\ run_mouse ([Press false (5, 5); Move false (6, 6)] ++ [Move true (7, 7)])
       (centred 1920 1080 (launched false 640 480 5)) = inl AttributeError.
Proof.
  split; [reflexivity|]. split; [reflexivity|].
  exact (proj1 (move_before_press_raises
                  (centred 1920 1080 (launched false 640 480 5)) (7, 7)
                  [Press false (5, 5); Move false (6, 6)] eq_refl eq_refl)).
Defined.

(** ** Texts *)

Lemma all_space_app (a b : string) :
  all_space (a ++ b) = all_space a && all_space b.
Proof.
  induction a as [|c a IH]; cbn; [reflexivity|].
  rewrite IH. now rewrite andb_assoc.
Qed.

Lemma lstrip_all_space (s : string) :
  all_space s = true -> Py.lstrip_by Py.is_space s = EmptyString.
Proof.
  induction s as [|c r IH]; cbn; [reflexivity|].
  intros H. apply andb_true_iff in H. destruct H as [Hc Hr].
  rewrite Hc. now apply IH.
Qed.

Lemma strip_empty_iff (s : string) :
  Py.strip s = EmptyString <-> all_space s = true.
Proof.
  split.
  - intros H. destruct (strip_trims s) as ((pre & post & Hs & Hpre & Hpost) & _).
    rewrite H in Hs. cbn in Hs. rewrite Hs, all_space_app, Hpre, Hpost.
    reflexivity.
  - intros H. unfold Py.strip. now rewrite lstrip_all_space.
Qed.

Lemma lstrip_fixed (s : string) :
  head_space s = false -> Py.lstrip_by Py.is_space s = s.
Proof. destruct s as [|c r]; cbn; [reflexivity|]. now intros ->. Qed.

Lemma rstrip_fixed (s : string) :
  last_space s = false -> Py.rstrip_by Py.is_space s = s.
Proof.
  induction s as [|c r IH]; [reflexivity|].
  cbn [last_space Py.rstrip_by]. destruct r as [|c' r'].
  - cbn. now intros ->.
  - intros H. rewrite (IH H). reflexivity.
Qed.

(** X17: the link [get_values] returns is already trimmed: trimming it
    again changes nothing, so a dialog filled with a returned link
    returns the same link; and the link it returns is empty exactly when
    the field holds nothing but white space. *)
Theorem link_is_stable (limit : nat) (dlg : SetupDialog) (text : string) :
  Py.strip (snd (get_values limit dlg)) = snd (get_values limit dlg)
  /\ snd (get_values limit {| duration_input := text;
                              url_input := snd (get_values limit dlg) |})
     = snd (get_values limit dlg)
  /\ (snd (get_values limit dlg) = EmptyString
      <-> all_space (url_input dlg) = true).
Proof.
  assert (H : Py.strip (Py.strip (url_input dlg)) = Py.strip (url_input dlg)).
  { destruct (strip_trims (url_input dlg)) as (_ & Hh & Hl).
    unfold Py.strip at 1. now rewrite (lstrip_fixed _ Hh), (rstrip_fixed _ Hl). }
  unfold get_values. cbn [snd url_input].
  split; [exact H|]. split; [exact H|]. apply strip_empty_iff.
Qed.

Lemma lower_app (a b : string) : Py.lower (a ++ b) = Py.lower a ++ Py.lower b.
Proof. induction a as [|c a IH]; cbn; [reflexivity | now rewrite IH]. Qed.

Lemma string_length_app (a b : string) :
  String.length (a ++ b) = (String.length a + String.length b)%nat.
Proof. induction a as [|c a IH]; cbn; [reflexivity | now rewrite IH]. Qed.

Lemma substring_whole (b : string) : substring 0 (String.length b) b = b.
Proof. induction b as [|c b IH]; cbn; [reflexivity | now rewrite IH]. Qed.

Lemma substring_suffix (a b : string) :
  substring (String.length a) (String.length b) (a ++ b) = b.
Proof. induction a as [|c a IH]; cbn; [apply substring_whole | exact IH]. Qed.

Lemma endswith_app (a b : string) : Py.endswith (a ++ b) b = true.
Proof.
  unfold Py.endswith. rewrite string_length_app.
  replace (String.length a + String.length b - String.length b)%nat
    with (String.length a) by lia.
  rewrite substring_suffix, String.eqb_refl.
  replace (String.length b <=? String.length a + String.length b)%nat with true
    by (symmetry; apply Nat.leb_le; lia).
  reflexivity.
Qed.

(** ** The constructor *)

(** X18: the extension test does not look at the letter case.  A path
    that ends in ".gif" written in any mix of capitals and small letters
    is taken as a GIF: when nothing valid is found there the constructor
    raises "Invalid GIF" (not "Image not found"), and an overlay that is
    constructed has a movie, not yet running. *)
Theorem gif_extension_any_case (env : Env) (p ext url : string) (d : Z) :
  Py.lower ext = ".gif" ->
  is_gif_path (p ++ ext) = true
  /\ (load_asset env (p ++ ext) = None ->
      OverlayWindow_init env (p ++ ext) d url = inl InvalidGif)
  /\ (forall o, OverlayWindow_init env (p ++ ext) d url = inr o ->
                is_gif o = true /\ movie o = Some NotRunning).
Proof.
  intros Hext.
  assert (G : is_gif_path (p ++ ext) = true).
  { unfold is_gif_path. rewrite lower_app, Hext. apply endswith_app. }
  split; [exact G|]. unfold OverlayWindow_init. unfold is_gif_path in G.
  rewrite G. split.
  - now intros ->.
  - intros o H. destruct (load_asset env (p ++ ext)) as [size|]; [|discriminate].
    destruct (is_c_int d); [|discriminate].
    destruct (extract_info env url); [|discriminate].
    destruct (dll_directory env); [|discriminate].
    injection H as <-. split; reflexivity.
Qed.

Lemma gif_extension_any_case_witness :
  Py.lower ".GiF" = ".gif"
  /\ is_gif_path ("clips/Loop" ++ ".GiF") = true.
Proof.
  split; [reflexivity|].
  exact (proj1 (gif_extension_any_case
                  {| load_asset := fun _ => None;
                     extract_info := fun _ => None;
                     dll_directory := true |}
                  "clips/Loop" ".GiF" "u" 5 eq_refl)).
Defined.

(** A GIF overlay as the code builds and shows it: the asset box is
    0 by 0, so the movie does not start with the show event; Pause and
    Resume then leave it running. *)
Lemma gif_overlay_as_built (env : Env) (p url : string) (d : Z) (o : Overlay) :
  OverlayWindow_init env (p ++ ".gif") d url = inr o ->
  let s := state (show quiet o) in
  asset_w (geom s) = 0 /\ asset_h (geom s) = 0
  /\ movie s = Some NotRunning
  /\ movie (state ((_toggle_pause quiet ;; _toggle_pause quiet) s))
     = Some Running.
Proof.
  intros H. unfold OverlayWindow_init in H.
  assert (G : Py.endswith (Py.lower (p ++ ".gif")) ".gif" = true)
    by (rewrite lower_app; apply endswith_app).
  rewrite G in H.
  destruct (load_asset env (p ++ ".gif")) as [size|]; [|discriminate].
  destruct (is_c_int d); [|discriminate].
  destruct (extract_info env url); [|discriminate].
  destruct (dll_directory env); [|discriminate].
  injection H as <-. cbn. auto.
Qed.

(** X19: what comes out of the constructor.  The asset is looked at
    first: when it is missing or invalid the constructor raises for it
    whatever the duration and the link are; next a duration that is no
    C integer raises OverflowError, whatever the link resolves to.  The
    constructor returns exactly when the asset loads, the duration is a
    C integer, the link resolves and the VLC directory is there.  The
    overlay it returns is not on screen and its player has not been
    started, but its timer already runs, with [elapsed] at 0, the pause
    flag unset and the bar at 0 out of [max 0 duration]; for a GIF its
    asset box is 0 by 0, whatever the size of the frames in the file. *)
Theorem init_outcomes (env : Env) (path url : string) (d : Z) :
  (load_asset env path = None ->
   OverlayWindow_init env path d url
   = inl (if is_gif_path path then InvalidGif else FileNotFoundError))
  /\ (load_asset env path <> None -> is_c_int d = false ->
      OverlayWindow_init env path d url = inl OverflowError)
  /\ (forall o,
        OverlayWindow_init env path d url = inr o
        <-> exists size stream,
              load_asset env path = Some size
              /\ is_c_int d = true
              /\ extract_info env url = Some stream
              /\ dll_directory env = true
              /\ o = _layout (constructed (is_gif_path path)
                               (fst (size_read (is_gif_path path) size))
                               (snd (size_read (is_gif_path path) size)) d))
  /\ (forall o,
        OverlayWindow_init env path d url = inr o ->
        window o = Hidden /\ player o = PIdle /\ timer_active o = true
        /\ elapsed o = 0 /\ paused o = false /\ duration o = d
        /\ progress_value o = 0 /\ progress_max o = Z.max 0 d
        /\ is_gif o = is_gif_path path
        /\ win_h (geom o) = asset_h (geom o) + 100
        /\ (is_gif_path path = true ->
            asset_w (geom o) = 0 /\ asset_h (geom o) = 0
            /\ shown_w (geom o) = 0 /\ shown_h (geom o) = 0)).
Proof.
  unfold OverlayWindow_init, is_gif_path.
  split; [now intros ->|]. split; [|split].
  - intros Hl Hd. destruct (load_asset env path); [|contradiction].
    now rewrite Hd.
  - intros o. split.
    + intros H. destruct (load_asset env path) as [size|]; [|discriminate].
      destruct (is_c_int d); [|discriminate].
      destruct (extract_info env url) as [st|]; [|discriminate].
      destruct (dll_directory env); [|discriminate].
      injection H as <-. exists size, st. auto.
    + intros (size & st & -> & -> & -> & -> & ->). reflexivity.
  - intros o H. destruct (load_asset env path) as [size|]; [|discriminate].
    destruct (is_c_int d); [|discriminate].
    destruct (extract_info env url) as [st|]; [|discriminate].
    destruct (dll_directory env); [|discriminate].
    injection H as <-. unfold _layout, constructed.
    cbn [window player timer_active elapsed paused duration progress_value
         progress_max is_gif geom set_geom win_w win_h asset_w asset_h ctrl_h
         shown_w shown_h native_w native_h].
    repeat split; try reflexivity; try lia;
      rewrite H; unfold size_read, shown_in; cbn [fst snd];
      rewrite ?half_of_int; reflexivity.
Qed.

Lemma init_outcomes_witness :
  let env := {| load_asset := fun _ => Some (640, 480);
                extract_info := fun u => Some u;
                dll_directory := true |} in
  load_asset env IMAGE_PATH <> None
  /\ is_c_int 2147483648 = false
  /\ OverlayWindow_init env IMAGE_PATH 2147483648 "https://example.org/v"
     = inl OverflowError.
Proof.
  cbn zeta.
  assert (Hl : load_asset {| load_asset := fun _ => Some (640, 480);
                             extract_info := fun u => Some u;
                             dll_directory := true |} IMAGE_PATH <> None)
    by discriminate.
  split; [exact Hl|]. split; [reflexivity|].
  exact (proj1 (proj2 (init_outcomes
                         {| load_asset := fun _ => Some (640, 480);
                            extract_info := fun u => Some u;
                            dll_directory := true |}
                         IMAGE_PATH "https://example.org/v" 2147483648))
           Hl eq_refl).
Defined.

(** ** The cycle *)

(** X20: what makes [start_cycle] leave without an overlay, in terms
    of what the user typed: after Start no overlay is constructed
    exactly when the link field holds nothing but white space, or the
    duration field is no integer literal, or it is one that is not
    positive. *)
Theorem start_cycle_refuses (raises : Call -> Overlay -> bool) (env : Env)
  (limit : nat) (dlg : SetupDialog) :
  start_cycle raises env limit (Some dlg) = NoOverlay
  <-> (all_space (url_input dlg) = true
       \/ (exists e, Py.int limit (duration_input dlg) = inl e)
       \/ (exists n, Py.int limit (duration_input dlg) = inr n /\ n <= 0)).
Proof.
  rewrite start_cycle_none, <- not_true_iff_false, may_start_iff.
  rewrite <- strip_empty_iff. unfold get_values. cbn [fst snd].
  destruct (Py.int limit (duration_input dlg)) as [e|n].
  - split; [intros _; right; left; now exists e | intros _ [H _]; lia].
  - split.
    + intros H. destruct (Py.strip (url_input dlg)) as [|c u] eqn:Hu;
        [now left|].
      right. right. exists n. split; [reflexivity|].
      destruct (Z.le_gt_cases n 0) as [L|L]; [exact L|].
      exfalso. apply H. split; [lia | discriminate].
    + intros [H|[(e & H)|(m & H & L)]] [P Q].
      * now apply Q.
      * discriminate.
      * injection H as <-. lia.
Qed.

Lemma image_is_no_gif : is_gif_path IMAGE_PATH = false.
Proof. reflexivity. Qed.

Lemma start_cycle_showing (env : Env) (limit : nat) (dlg : SetupDialog)
  (o : Overlay) :
  start_cycle quiet env limit (Some dlg) = Showing o ->
  exists w0 h0 stream,
    0 < fst (get_values limit dlg) <= 2147483647
    /\ snd (get_values limit dlg) <> EmptyString
    /\ load_asset env IMAGE_PATH = Some (w0, h0)
    /\ extract_info env (snd (get_values limit dlg)) = Some stream
    /\ dll_directory env = true
    /\ o = launched false w0 h0 (fst (get_values limit dlg)).
Proof.
  unfold start_cycle. destruct (get_values limit dlg) as [dur url].
  cbn [fst snd]. destruct (may_start dur url) eqn:Hm; [|discriminate].
  apply may_start_iff in Hm. destruct Hm as [Hd Hu].
  unfold OverlayWindow_init.
  change (Py.endswith (Py.lower IMAGE_PATH) ".gif") with (is_gif_path IMAGE_PATH).
  rewrite image_is_no_gif.
  destruct (load_asset env IMAGE_PATH) as [[w0 h0]|]; [|discriminate].
  destruct (is_c_int dur) eqn:Hc; [|discriminate].
  destruct (extract_info env url) as [st|]; [|discriminate].
  destruct (dll_directory env); [|discriminate].
  intros H. exists w0, h0, st.
  unfold is_c_int in Hc. apply andb_true_iff in Hc. destruct Hc as [_ Hc].
  apply Z.leb_le in Hc.
  repeat split; auto.
  unfold launched. unfold size_read in H. cbn [fst snd] in H.
  destruct (result (show quiet (_layout (constructed false w0 h0 dur))));
    [discriminate|].
  now injection H as <-.
Qed.

(** X21: when [start_cycle] puts an overlay on screen.  With library
    calls that do not raise, Start leads to a shown overlay exactly when
    the duration is positive and a C integer (at most 2147483647), the
    link is not empty, the image loads, the link resolves and the VLC
    directory is there; the overlay is then the freshly constructed one
    after its show event, for the parsed duration.  A positive duration
    beyond the C integers makes the constructor raise OverflowError
    once the image has loaded: nothing is shown.  A dismissed dialog
    quits whatever it holds. *)
Theorem start_cycle_shows (env : Env) (limit : nat) (dlg : SetupDialog)
  (o : Overlay) :
  (start_cycle quiet env limit (Some dlg) = Showing o
   <-> exists w0 h0 stream,
         0 < fst (get_values limit dlg) <= 2147483647
         /\ snd (get_values limit dlg) <> EmptyString
         /\ load_asset env IMAGE_PATH = Some (w0, h0)
         /\ extract_info env (snd (get_values limit dlg)) = Some stream
         /\ dll_directory env = true
         /\ o = launched false w0 h0 (fst (get_values limit dlg)))
  /\ (2147483647 < fst (get_values limit dlg) ->
      snd (get_values limit dlg) <> EmptyString ->
      load_asset env IMAGE_PATH <> None ->
      start_cycle quiet env limit (Some dlg) = Failed OverflowError)
  /\ start_cycle quiet env limit None = Quit.
Proof.
  split; [|split; [|reflexivity]].
  - split; [apply start_cycle_showing|].
    intros (w0 & h0 & st & Hd & Hu & Hl & He & Hdll & ->).
    unfold start_cycle. destruct (get_values limit dlg) as [dur url].
    cbn [fst snd] in *.
    assert (Hm : may_start dur url = true) by (apply may_start_iff; split; [lia|auto]).
    assert (Hc : is_c_int dur = true).
    { unfold is_c_int. apply andb_true_iff. split; apply Z.leb_le; lia. }
    rewrite Hm. unfold OverlayWindow_init.
    change (Py.endswith (Py.lower IMAGE_PATH) ".gif") with (is_gif_path IMAGE_PATH).
    rewrite image_is_no_gif, Hl, Hc, He, Hdll. reflexivity.
  - unfold start_cycle. destruct (get_values limit dlg) as [dur url].
    cbn [fst snd]. intros Hd Hu Hl.
    assert (Hm : may_start dur url = true) by (apply may_start_iff; split; [lia|auto]).
    assert (Hc : is_c_int dur = false).
    { unfold is_c_int. apply andb_false_iff. right. apply Z.leb_gt. lia. }
    rewrite Hm. unfold OverlayWindow_init.
    destruct (load_asset env IMAGE_PATH); [|contradiction].
    now rewrite Hc.
Qed.

Lemma start_cycle_shows_witness :
  let env := {| load_asset := fun _ => Some (640, 480);
                extract_info := fun u => Some u;
                dll_directory := true |} in
  let dlg := {| duration_input := "2147483648";
                url_input := "https://example.org/v" |} in
  2147483647 < fst (get_values 4300 dlg)
  /\ snd (get_values 4300 dlg) <> EmptyString
  /\ load_asset env IMAGE_PATH <> None
  /\ start_cycle quiet env 4300 (Some dlg) = Failed OverflowError.
Proof.
  cbn zeta.
  assert (H1 : 2147483647
               < fst (get_values 4300
                        {| duration_input := "2147483648";
                           url_input := "https://example.org/v" |}))
    by (vm_compute; reflexivity).
  assert (H2 : snd (get_values 4300
                      {| duration_input := "2147483648";
                         url_input := "https://example.org/v" |})
               <> EmptyString) by (vm_compute; discriminate).
  assert (H3 : load_asset {| load_asset := fun _ => Some (640, 480);
                             extract_info := fun u => Some u;
                             dll_directory := true |} IMAGE_PATH <> None)
    by discriminate.
  split; [exact H1|]. split; [exact H2|]. split; [exact H3|].
  exact (proj1 (proj2 (start_cycle_shows
                         {| load_asset := fun _ => Some (640, 480);
                            extract_info := fun u => Some u;
                            dll_directory := true |} 4300
                         {| duration_input := "2147483648";
                            url_input := "https://example.org/v" |}
                         (launched false 640 480 1)))
           H1 H2 H3).
Defined.

(** X22: an overlay that [start_cycle] has put on screen is safe for
    the rest of its life.  Its duration is the positive number parsed
    from the dialog, and whatever the event loop delivers to it,
    [0 <= elapsed <= duration] holds, [finished] is emitted at most
    once, and exactly once as soon as [elapsed] has reached the
    duration or the window is closed. *)
Theorem started_overlay_is_safe (env : Env) (limit : nat) (dlg : SetupDialog)
  (o : Overlay) (evs : list Event) (w : World) :
  start_cycle quiet env limit (Some dlg) = Showing o ->
  run_events quiet evs {| ow := o; log := [] |} = Some w ->
  duration (ow w) = fst (get_values limit dlg)
  /\ 0 < duration (ow w)
  /\ 0 <= elapsed (ow w) <= duration (ow w)
  /\ (List.length (log w) <= 1)%nat
  /\ (elapsed (ow w) = duration (ow w) \/ window (ow w) = Closed ->
      log w = [finished] /\ terminal (ow w) = true).
Proof.
  intros Hs Hr.
  destruct (start_cycle_showing env limit dlg o Hs)
    as (w0 & h0 & st & (Hd & _) & _ & _ & _ & _ & ->).
  pose proof (run_events_inv _ evs _ w
                (inv_start false w0 h0 _ Hd) Hr) as (Hdur & He & Hw).
  rewrite Hdur. split; [reflexivity|]. split; [exact Hd|]. split; [exact He|].
  destruct (window (ow w)); [contradiction| |].
  - destruct Hw as (Hlt & -> & _). split; [cbn; lia|].
    intros [H|H]; [lia | discriminate].
  - destruct Hw as (Ht & ->). split; [cbn; lia | auto].
Qed.

Lemma started_overlay_is_safe_witness :
  let env := {| load_asset := fun _ => Some (640, 480);
                extract_info := fun u => Some u;
                dll_directory := true |} in
  let dlg := {| duration_input := " 2 "; url_input := " https://example.org/v " |} in
  exists o w,
    start_cycle quiet env 4300 (Some dlg) = Showing o
    /\ run_events quiet [Timeout; Timeout] {| ow := o; log := [] |} = Some w
    /\ duration (ow w) = 2 /\ 0 <= elapsed (ow w) <= duration (ow w).
Proof.
  cbn zeta.
  destruct (start_cycle quiet
              {| load_asset := fun _ => Some (640, 480);
                 extract_info := fun u => Some u;
                 dll_directory := true |} 4300
              (Some {| duration_input := " 2 ";
                       url_input := " https://example.org/v " |}))
    as [| |e|o] eqn:Hs; try (vm_compute in Hs; discriminate Hs).
  destruct (run_events quiet [Timeout; Timeout] {| ow := o; log := [] |})
    as [w|] eqn:Hr.
  - exists o, w. split; [reflexivity|]. split; [exact Hr|].
    destruct (started_overlay_is_safe _ _ _ o _ w Hs Hr) as (A & _ & B & _).
    split; [exact A | exact B].
  - exfalso. vm_compute in Hs. injection Hs as <-. vm_compute in Hr.
    discriminate Hr.
Defined.
